(** * Design-pattern examples: State and Facade

    A shallow embedding of the two TypeScript examples.

    - [StatePattern]: the classes [Context], [State], [ConcreteStateA] and
      [ConcreteStateB].  Objects live in a store and are named by references,
      because a [State] and its [Context] point at each other and the same
      [State] object can be handed to several contexts.  [console.log] appends
      a line to the console of the world.
    - [FacadePattern]: the classes [Facade], [Subsystem1] and [Subsystem2],
      which are pure string builders. *)

From stdpp Require Import base option list strings.

Module StatePattern.

(** ** Objects and the store *)

(** References to [Context] objects and to [State] objects.  The two classes
    are unrelated in the source, so each has a store of its own. *)
Abbreviation cref := nat (only parsing).
Abbreviation sref := nat (only parsing).

(** The two concrete subclasses of the abstract class [State]. *)
Inductive StateClass : Type :=
  | ConcreteStateA
  | ConcreteStateB.

Global Instance StateClass_eq_dec : EqDecision StateClass.
Proof. solve_decision. Defined.

(** [class Context { private state: State; }]: the field is unset ([None])
    until the first assignment. *)
Record Context : Type := { state : option sref }.

(** [abstract class State { protected context: Context; }] together with the
    concrete class of the object. *)
Record State : Type := { cls : StateClass; context : option cref }.

Record World : Type := {
  contexts : list Context;
  states : list State;
  console : list string
}.

Definition empty_world : World :=
  {| contexts := []; states := []; console := [] |}.

(** [TypeError]: a property is read from [undefined] (an unset field).
    [Dangling]: a reference that names no object of the store; a TypeScript
    program cannot write one, it only arises for an ill-scoped script. *)
Inductive Error : Type :=
  | TypeError
  | Dangling.

Inductive result (A : Type) : Type :=
  | Ok (a : A) (w : World)
  | Err (e : Error).
Global Arguments Ok {A} a w.
Global Arguments Err {A} e.

(** ** The state-and-error monad of the methods *)

Definition M (A : Type) : Type := World → result A.

Global Instance M_ret : MRet M := λ A a w, Ok a w.
Global Instance M_bind : MBind M := λ A B f m w,
  match m w with
  | Ok a w' => f a w'
  | Err e => Err e
  end.

Definition throw {A} (e : Error) : M A := λ _, Err e.

(** [console.log(line)] *)
Definition log (line : string) : M unit := λ w,
  Ok tt {| contexts := contexts w; states := states w;
           console := console w ++ [line] |}.

Definition alloc_context (Cx : Context) : M cref := λ w,
  Ok (length (contexts w))
     {| contexts := contexts w ++ [Cx]; states := states w;
        console := console w |}.

Definition alloc_state (St : State) : M sref := λ w,
  Ok (length (states w))
     {| contexts := contexts w; states := states w ++ [St];
        console := console w |}.

Definition read_context (c : cref) : M Context := λ w,
  match contexts w !! c with
  | Some Cx => Ok Cx w
  | None => Err Dangling
  end.

Definition read_state (s : sref) : M State := λ w,
  match states w !! s with
  | Some St => Ok St w
  | None => Err Dangling
  end.

Definition write_context (c : cref) (Cx : Context) : M unit := λ w,
  match contexts w !! c with
  | Some _ => Ok tt {| contexts := <[c := Cx]> (contexts w);
                       states := states w; console := console w |}
  | None => Err Dangling
  end.

Definition write_state (s : sref) (St : State) : M unit := λ w,
  match states w !! s with
  | Some _ => Ok tt {| contexts := contexts w;
                       states := <[s := St]> (states w);
                       console := console w |}
  | None => Err Dangling
  end.

(** Reading a property of the value of a field: a [TypeError] when the field
    is unset. *)
Definition deref {A} (field : option A) : M A :=
  match field with
  | Some r => mret r
  | None => throw TypeError
  end.

(** ** The classes *)

(** [(<any>state).constructor.name] *)
Definition constructor_name (k : StateClass) : string :=
  match k with
  | ConcreteStateA => "ConcreteStateA"
  | ConcreteStateB => "ConcreteStateB"
  end.

(** [new ConcreteStateA()], [new ConcreteStateB()]: no constructor body, the
    inherited field [context] is left unset. *)
Definition new_State (k : StateClass) : M sref :=
  alloc_state {| cls := k; context := None |}.

(** [State.setContext]:  [this.context = context] *)
Definition setContext (this : sref) (ctx : cref) : M unit :=
  St ← read_state this;
  write_state this {| cls := cls St; context := Some ctx |}.

(** [Context.transitionTo]:
    [console.log(`Context: Transition to ${(<any>state).constructor.name}.`);
     this.state = state;
     this.state.setContext(this);] *)
Definition transitionTo (this : cref) (s : sref) : M unit :=
  St ← read_state s;
  log ("Context: Transition to " +:+ constructor_name (cls St) +:+ ".");;
  write_context this {| state := Some s |};;
  Cx ← read_context this;
  held ← deref (state Cx);
  setContext held this.

(** [new Context(state)]: the constructor body is [this.transitionTo(state)]. *)
Definition new_Context (s : sref) : M cref :=
  this ← alloc_context {| state := None |};
  transitionTo this s;;
  mret this.

(** [handle1], dispatched on the class of [this]. *)
Definition handle1 (this : sref) : M unit :=
  St ← read_state this;
  match cls St with
  | ConcreteStateA =>
      log "ConcreteStateA handles request1.";;
      log "ConcreteStateA wants to change the state of the context.";;
      ctx ← deref (context St);
      fresh ← new_State ConcreteStateB;
      transitionTo ctx fresh
  | ConcreteStateB =>
      log "ConcreteStateB handles request1."
  end.

(** [handle2], dispatched on the class of [this]. *)
Definition handle2 (this : sref) : M unit :=
  St ← read_state this;
  match cls St with
  | ConcreteStateA =>
      log "ConcreteStateA handles request2."
  | ConcreteStateB =>
      log "ConcreteStateB handles request2.";;
      log "ConcreteStateB wants to change the state of the context.";;
      ctx ← deref (context St);
      fresh ← new_State ConcreteStateA;
      transitionTo ctx fresh
  end.

(** [Context.request1]:  [this.state.handle1()] *)
Definition request1 (this : cref) : M unit :=
  Cx ← read_context this;
  held ← deref (state Cx);
  handle1 held.

(** [Context.request2]:  [this.state.handle2()] *)
Definition request2 (this : cref) : M unit :=
  Cx ← read_context this;
  held ← deref (state Cx);
  handle2 held.

(** ** Client scripts *)

(** What a client can do with the classes through [Context]'s interface and
    the constructors. *)
Inductive Op : Type :=
  | NewConcreteStateA
  | NewConcreteStateB
  | NewContext (s : sref)
  | TransitionTo (c : cref) (s : sref)
  | Request1 (c : cref)
  | Request2 (c : cref).

Definition exec (op : Op) : M unit :=
  match op with
  | NewConcreteStateA => new_State ConcreteStateA;; mret tt
  | NewConcreteStateB => new_State ConcreteStateB;; mret tt
  | NewContext s => new_Context s;; mret tt
  | TransitionTo c s => transitionTo c s
  | Request1 c => request1 c
  | Request2 c => request2 c
  end.

Fixpoint run (ops : list Op) : M unit :=
  match ops with
  | [] => mret tt
  | op :: rest => exec op;; run rest
  end.

(** The client code at the end of the file:
    [const context = new Context(new ConcreteStateA());
     context.request1();
     context.request2();] *)
Definition client_code : list Op :=
  [NewConcreteStateA; NewContext 0; Request1 0; Request2 0].

End StatePattern.

Module FacadePattern.

(** The line feed written ['\n'] in the source. *)
Definition LF : string := String (Ascii.ascii_of_nat 10) EmptyString.

(** [class Subsystem1]: no fields. *)
Module Subsystem1.
Inductive t : Type := new.

Definition operation1 (this : t) : string := "Subsystem1: Ready!" +:+ LF.

Definition operationN (this : t) : string := "Subsystem1: Go!" +:+ LF.
End Subsystem1.

(** [class Subsystem2]: no fields. *)
Module Subsystem2.
Inductive t : Type := new.

Definition operation1 (this : t) : string := "Subsystem2: Get ready!" +:+ LF.

Definition operationZ (this : t) : string := "Subsystem2: Fire!".
End Subsystem2.

Module Facade.
Record t : Type := {
  subsystem1 : Subsystem1.t;
  subsystem2 : Subsystem2.t
}.

(** [a || b] on an optional object: an object is truthy, an omitted
    argument is [undefined]. *)
Definition or_else {A} (a : option A) (b : A) : A :=
  match a with
  | Some o => o
  | None => b
  end.

(** [constructor(subsystem1?: Subsystem1, subsystem2?: Subsystem2)] *)
Definition constructor (s1 : option Subsystem1.t) (s2 : option Subsystem2.t)
  : t :=
  {| subsystem1 := or_else s1 Subsystem1.new;
     subsystem2 := or_else s2 Subsystem2.new |}.

(** [operation()]: the result is built by successive [+=]. *)
Definition operation (this : t) : string :=
  let result := "Facade initializes subsystems:" +:+ LF in
  let result := result +:+ Subsystem1.operation1 (subsystem1 this) in
  let result := result +:+ Subsystem2.operation1 (subsystem2 this) in
  let result :=
    result +:+ "Facade orders subsystems to perform the action:" +:+ LF in
  let result := result +:+ Subsystem1.operationN (subsystem1 this) in
  let result := result +:+ Subsystem2.operationZ (subsystem2 this) in
  result.

(** The client code: [new Facade(subsystem1, subsystem2)] with both
    subsystems created by the client. *)
Definition client_facade : t :=
  constructor (Some Subsystem1.new) (Some Subsystem2.new).
End Facade.

End FacadePattern.

Module ProxyPattern.

(** The methods of the Proxy example only print: a computation takes the
    lines printed so far and returns its value with the lines printed after
    it. *)
Definition Console (A : Type) : Type := list string → A * list string.

Global Instance Console_ret : MRet Console := λ A a out, (a, out).
Global Instance Console_bind : MBind Console := λ A B f m out,
  let (a, out') := m out in f a out'.

(** [console.log(line)] *)
Definition console_log (line : string) : Console unit := λ out,
  (tt, out ++ [line]).

(** [interface Subject { request(): void; }] *)
Class Subject (T : Type) : Type := request : T → Console unit.

(** [class RealSubject implements Subject]: no fields. *)
Inductive RealSubject : Type := new_RealSubject.

Global Instance RealSubject_Subject : Subject RealSubject := λ this,
  console_log "RealSubject: Handling request.".

(** [class Proxy implements Subject { private realSubject: RealSubject; }]
    with [constructor(realSubject) { this.realSubject = realSubject; }]. *)
Record Proxy : Type := new_Proxy { realSubject : RealSubject }.

(** [Proxy.checkAccess] *)
Definition checkAccess (this : Proxy) : Console bool :=
  console_log "Proxy: Checking access prior to firing a real request.";;
  mret true.

(** [Proxy.logAccess] *)
Definition logAccess (this : Proxy) : Console unit :=
  console_log "Proxy: Logging the time of request.".

(** [Proxy.request]:
    [if (this.checkAccess()) { this.realSubject.request(); this.logAccess(); }] *)
Global Instance Proxy_Subject : Subject Proxy := λ this,
  granted ← checkAccess this;
  if granted : bool
  then request (realSubject this);; logAccess this
  else mret tt.

(** [function clientCode(subject: Subject) { subject.request(); }] *)
Definition clientCode {T} `{Subject T} (subject : T) : Console unit :=
  request subject.

(** The statements at the end of the file. *)
Definition main : Console unit :=
  console_log "Client: Executing the client code with a real subject:";;
  let realSubject := new_RealSubject in
  clientCode realSubject;;
  console_log EmptyString;;
  console_log "Client: Executing the same client code with a proxy:";;
  let proxy := new_Proxy realSubject in
  clientCode proxy.

(** A value of the interface type [Subject]: an object of one of the two
    classes of the file that implement it; [request] is dispatched on the
    class. *)
Inductive AnySubject : Type :=
  | a_real (r : RealSubject)
  | a_proxy (p : Proxy).

Global Instance AnySubject_Subject : Subject AnySubject := λ this,
  match this with
  | a_real r => request r
  | a_proxy p => request p
  end.

(** A client that passes the subjects of a list to [clientCode], in order. *)
Fixpoint serve (subjects : list AnySubject) : Console unit :=
  match subjects with
  | [] => mret tt
  | subject :: rest => clientCode subject;; serve rest
  end.

End ProxyPattern.

(** ** Observations, the specified machine and the invariants *)

Module StateSpec.
Import StatePattern.

(** The state object a context holds, the class of that object, and the
    back-reference of a state object. *)
Definition held_state (w : World) (c : cref) : option sref :=
  Cx ← contexts w !! c; state Cx.

Definition active_class (w : World) (c : cref) : option StateClass :=
  s ← held_state w c; St ← states w !! s; Some (cls St).

Definition backref (w : World) (s : sref) : option cref :=
  St ← states w !! s; context St.

(** The two requests a client can send. *)
Inductive Request : Type :=
  | RequestOne
  | RequestTwo.

Definition request_op (c : cref) (r : Request) : Op :=
  match r with
  | RequestOne => Request1 c
  | RequestTwo => Request2 c
  end.

(** The state machine in the words of the specification:
    A --(requestOne)--> B;  B --(requestTwo)--> A;  nothing else moves. *)
Definition machine_step (v : StateClass) (r : Request) : StateClass :=
  match v, r with
  | ConcreteStateA, RequestOne => ConcreteStateB
  | ConcreteStateB, RequestTwo => ConcreteStateA
  | ConcreteStateA, RequestTwo => ConcreteStateA
  | ConcreteStateB, RequestOne => ConcreteStateB
  end.

Definition machine_run (v : StateClass) (rs : list Request) : StateClass :=
  foldl machine_step v rs.

(** The request that does not make a state of class [v] move. *)
Definition non_trigger (v : StateClass) (c : cref) : Op :=
  match v with
  | ConcreteStateA => Request2 c
  | ConcreteStateB => Request1 c
  end.

(** The line printed by [transitionTo]. *)
Definition transition_line (k : StateClass) : string :=
  "Context: Transition to " +:+ constructor_name k +:+ ".".

(** Every context holds a state object of the store. *)
Definition state_set (w : World) : Prop :=
  ∀ c Cx, contexts w !! c = Some Cx →
    ∃ s, state Cx = Some s ∧ is_Some (states w !! s).

(** Every context holds a state object whose back-reference is set to some
    context of the store (not necessarily the holder). *)
Definition attached (w : World) : Prop :=
  ∀ c Cx, contexts w !! c = Some Cx →
    ∃ s St c', state Cx = Some s ∧ states w !! s = Some St ∧
               context St = Some c' ∧ is_Some (contexts w !! c').

(** The state object held by a context points back to that context. *)
Definition backref_inv (w : World) : Prop :=
  ∀ c s, held_state w c = Some s → backref w s = Some c.

(** Context [c] holds a state object of class [k] that points back to [c]. *)
Definition owns (w : World) (c : cref) (k : StateClass) : Prop :=
  ∃ s, held_state w c = Some s ∧
       states w !! s = Some {| cls := k; context := Some c |}.

(** No context other than [c] holds [s]. *)
Definition sole_holder (w : World) (c : cref) (s : sref) : Prop :=
  ∀ c0, held_state w c0 = Some s → c0 = c.

(** An operation does not hand a state object to a context while another
    context holds it. *)
Definition exclusive (op : Op) (w : World) : Prop :=
  match op with
  | NewContext s => sole_holder w (length (contexts w)) s
  | TransitionTo c s => sole_holder w c s
  | _ => True
  end.

(** The references an operation mentions name objects of the store. *)
Definition in_scope (op : Op) (w : World) : Prop :=
  match op with
  | NewContext s => s < length (states w)
  | TransitionTo c s => c < length (contexts w) ∧ s < length (states w)
  | Request1 c | Request2 c => c < length (contexts w)
  | NewConcreteStateA | NewConcreteStateB => True
  end.

(** [P] holds of every operation of a script in the world it is executed
    in; nothing is asked of what follows a failing operation. *)
Fixpoint along (P : Op → World → Prop) (ops : list Op) (w : World) : Prop :=
  match ops with
  | [] => True
  | op :: rest =>
      P op w ∧
      match exec op w with
      | Ok _ w' => along P rest w'
      | Err _ => True
      end
  end.

(** [w'] is [w] where context [c] holds [s] and [s] is a state of class [k]
    pointing back to [c]; every other object is as in [w]. *)
Definition installs (w w' : World) (c : cref) (s : sref) (k : StateClass)
  : Prop :=
  (∀ c0, contexts w' !! c0 =
         if decide (c0 = c) then Some {| state := Some s |}
         else contexts w !! c0) ∧
  (∀ s0, states w' !! s0 =
         if decide (s0 = s) then Some {| cls := k; context := Some c |}
         else states w !! s0).

(** The world after [transitionTo c s], [s] being of class [k]. *)
Definition transitioned (c : cref) (s : sref) (k : StateClass) (w : World)
  : World :=
  {| contexts := <[c := {| state := Some s |}]> (contexts w);
     states := <[s := {| cls := k; context := Some c |}]> (states w);
     console := console w ++ [transition_line k] |}.

(** The world after [lines] have been printed. *)
Definition printed (lines : list string) (w : World) : World :=
  {| contexts := contexts w; states := states w;
     console := console w ++ lines |}.

(** The world after a handler of a state pointing back to [c] has
    announced itself with [lines] and moved [c] to a new state of class [k]. *)
Definition moved (c : cref) (k : StateClass) (lines : list string) (w : World)
  : World :=
  {| contexts := <[c := {| state := Some (length (states w)) |}]> (contexts w);
     states := states w ++ [{| cls := k; context := Some c |}];
     console := console w ++ lines ++ [transition_line k] |}.

(** What a transition-triggering handler does, given the back-reference [o]
    of the state object it runs on. *)
Definition move_outcome (o : option cref) (k : StateClass)
    (lines : list string) (w : World) : result unit :=
  match o with
  | None => Err TypeError
  | Some c =>
      match contexts w !! c with
      | Some _ => Ok tt (moved c k lines w)
      | None => Err Dangling
      end
  end.

(** From [w] to [w'] context [c] has been given a state object that did not
    exist in [w]: the next object of the store, of class [k] and pointing
    back to [c]; the state objects of [w] are all still there, unchanged. *)
Definition installs_fresh (w w' : World) (c : cref) (k : StateClass) : Prop :=
  let fresh := length (states w) in
  states w !! fresh = None ∧
  held_state w' c = Some fresh ∧
  states w' !! fresh = Some {| cls := k; context := Some c |} ∧
  ∀ s0 St0, states w !! s0 = Some St0 → states w' !! s0 = Some St0.

(** The world after [new Context(s)], [s] being of class [k]. *)
Definition created (s : sref) (k : StateClass) (w : World) : World :=
  {| contexts := contexts w ++ [{| state := Some s |}];
     states :=
       <[s := {| cls := k; context := Some (length (contexts w)) |}]>
         (states w);
     console := console w ++ [transition_line k] |}.

(** Which context and state object an operation can install. *)
Definition target (op : Op) (w : World) (c : cref) (s : sref) : Prop :=
  match op with
  | NewContext s0 => c = length (contexts w) ∧ s = s0
  | TransitionTo c0 s0 => c = c0 ∧ s = s0
  | Request1 _ | Request2 _ => s = length (states w)
  | NewConcreteStateA | NewConcreteStateB => False
  end.

(** What an operation that returns has done to the two stores: nothing,
    the allocation of a detached state object, or one installation. *)
Inductive effect (op : Op) (w w' : World) : Prop :=
  | eff_quiet :
      contexts w' = contexts w → states w' = states w → effect op w w'
  | eff_alloc k :
      contexts w' = contexts w →
      states w' = states w ++ [{| cls := k; context := None |}] →
      effect op w w'
  | eff_install c s k :
      installs w w' c s k → target op w c s → effect op w w'.

End StateSpec.

(** ** What a request prints and allocates; what an operation can do *)

Module StateTrace.
Import StatePattern StateSpec.

(** The request [r] makes a state of class [k] move. *)
Definition triggers (k : StateClass) (r : Request) : bool :=
  match k, r with
  | ConcreteStateA, RequestOne => true
  | ConcreteStateB, RequestTwo => true
  | _, _ => false
  end.

(** The lines of [handle1]/[handle2] of class [k], followed by the line of
    [transitionTo] when the handler calls it. *)
Definition request_lines (k : StateClass) (r : Request) : list string :=
  match k, r with
  | ConcreteStateA, RequestOne =>
      ["ConcreteStateA handles request1.";
       "ConcreteStateA wants to change the state of the context.";
       "Context: Transition to ConcreteStateB."]
  | ConcreteStateA, RequestTwo => ["ConcreteStateA handles request2."]
  | ConcreteStateB, RequestOne => ["ConcreteStateB handles request1."]
  | ConcreteStateB, RequestTwo =>
      ["ConcreteStateB handles request2.";
       "ConcreteStateB wants to change the state of the context.";
       "Context: Transition to ConcreteStateA."]
  end.

Fixpoint machine_trace (k : StateClass) (rs : list Request) : list string :=
  match rs with
  | [] => []
  | r :: rest => request_lines k r ++ machine_trace (machine_step k r) rest
  end.

Fixpoint transitions (k : StateClass) (rs : list Request) : nat :=
  match rs with
  | [] => 0
  | r :: rest =>
      (if triggers k r then 1 else 0) + transitions (machine_step k r) rest
  end.

(** The worlds an operation that returns can lead to. *)
Inductive outcome (w : World) : World → Prop :=
  | out_printed line :
      outcome w (printed [line] w)
  | out_alloc k :
      outcome w {| contexts := contexts w;
                   states := states w ++ [{| cls := k; context := None |}];
                   console := console w |}
  | out_transitioned c s Cx St :
      contexts w !! c = Some Cx → states w !! s = Some St →
      outcome w (transitioned c s (cls St) w)
  | out_created s St :
      states w !! s = Some St →
      outcome w (created s (cls St) w)
  | out_moved c k lines Cx :
      contexts w !! c = Some Cx →
      outcome w (moved c k lines w).

End StateTrace.

(** ** Every public constructor and method of the State example *)

Module StateCalls.
Import StatePattern StateSpec.

(** Besides the operations of a client script, a client can call the public
    methods of a state object itself: [setContext], [handle1], [handle2]. *)
Inductive Call : Type :=
  | Through (op : Op)
  | SetContext (s : sref) (c : cref)
  | Handle1 (s : sref)
  | Handle2 (s : sref).

Definition call (a : Call) : M unit :=
  match a with
  | Through op => exec op
  | SetContext s c => setContext s c
  | Handle1 s => handle1 s
  | Handle2 s => handle2 s
  end.

Fixpoint calls (l : list Call) : M unit :=
  match l with
  | [] => mret tt
  | a :: rest => call a;; calls rest
  end.

(** A call does not hand a state object to a context, nor point a state
    object at a context, while another context holds it. *)
Definition exclusive_call (a : Call) (w : World) : Prop :=
  match a with
  | Through op => exclusive op w
  | SetContext s c => sole_holder w c s
  | Handle1 _ | Handle2 _ => True
  end.

(** [P] holds of every call of a list in the world the call is made in;
    nothing is asked of what follows a failing call. *)
Fixpoint along_calls (P : Call → World → Prop) (l : list Call) (w : World)
  : Prop :=
  match l with
  | [] => True
  | a :: rest =>
      P a w ∧
      match call a w with
      | Ok _ w' => along_calls P rest w'
      | Err _ => True
      end
  end.

End StateCalls.

(** ** Observations on the console of the Proxy example *)

Module ProxySpec.
Import ProxyPattern.

(** The lines printed by a computation started on an empty console. *)
Definition output {A} (m : Console A) : list string := snd (m []).

(** The lines [Proxy] prints on its own account. *)
Definition check_line : string :=
  "Proxy: Checking access prior to firing a real request.".
Definition log_line : string := "Proxy: Logging the time of request.".
Definition real_line : string := "RealSubject: Handling request.".

Definition proxy_line (line : string) : Prop :=
  line = check_line ∨ line = log_line.

Global Instance proxy_line_dec line : Decision (proxy_line line).
Proof. unfold proxy_line. apply _. Defined.

(** The console without the lines of the proxies. *)
Definition without_proxy_lines (out : list string) : list string :=
  filter (λ line, ¬ proxy_line line) out.

(** The real subject behind a subject. *)
Definition unwrap (subject : AnySubject) : AnySubject :=
  match subject with
  | a_real r => a_real r
  | a_proxy p => a_real (realSubject p)
  end.

Definition is_proxy (subject : AnySubject) : bool :=
  match subject with
  | a_real _ => false
  | a_proxy _ => true
  end.

(** What one call of [clientCode] is expected to print: a proxy announces
    the access check, lets the real subject handle the request, then logs. *)
Definition subject_lines (subject : AnySubject) : list string :=
  match subject with
  | a_real _ => [real_line]
  | a_proxy _ => [check_line; real_line; log_line]
  end.

(** The number of occurrences of a line. *)
Definition occurrences (line : string) (out : list string) : nat :=
  length (filter (λ l, l = line) out).

(** The number of proxies among the subjects. *)
Definition proxies (subjects : list AnySubject) : nat :=
  length (filter (λ subject, is_proxy subject = true) subjects).

End ProxySpec.

Import StatePattern StateSpec.

(** * Proofs: the State example *)

Section Primitives.

Lemma transitionTo_ok c s w Cx St :
  contexts w !! c = Some Cx → states w !! s = Some St →
  transitionTo c s w = Ok tt (transitioned c s (cls St) w).
Proof.
  intros Hc Hs.
  unfold transitionTo, setContext, read_state, read_context, write_context,
    write_state, log, deref, mbind, M_bind, mret, M_ret; simpl.
  rewrite Hs; simpl. rewrite Hc; simpl.
  rewrite list_lookup_insert_eq by (eapply lookup_lt_Some; eauto); cbn.
  rewrite Hs; cbn. rewrite Hs. reflexivity.
Qed.

Lemma transitionTo_inv c s w w' :
  transitionTo c s w = Ok tt w' →
  ∃ Cx St, contexts w !! c = Some Cx ∧ states w !! s = Some St ∧
           w' = transitioned c s (cls St) w.
Proof.
  destruct (states w !! s) as [St|] eqn:Hs.
  - destruct (contexts w !! c) as [Cx|] eqn:Hc.
    + rewrite (transitionTo_ok c s w Cx St Hc Hs). intros [= <-]. eauto.
    + unfold transitionTo, read_state, write_context, log, mbind, M_bind.
      rewrite Hs; cbn. rewrite Hc. discriminate.
  - unfold transitionTo, read_state, mbind, M_bind. rewrite Hs. discriminate.
Qed.

Lemma insert_snoc {A} (l : list A) (x y : A) :
  <[length l := y]> (l ++ [x]) = l ++ [y].
Proof.
  rewrite insert_app_r_alt by lia. rewrite Nat.sub_diag. reflexivity.
Qed.

Lemma lookup_insert_decide {A} (l : list A) (i j : nat) (x : A) :
  i < length l →
  <[i := x]> l !! j = if decide (j = i) then Some x else l !! j.
Proof.
  intros Hi. rewrite list_lookup_insert.
  destruct (decide (j = i)) as [->|Hne].
  - rewrite decide_True by (split; [reflexivity | assumption]). reflexivity.
  - rewrite decide_False by (intros [Heq _]; congruence). reflexivity.
Qed.

Lemma lookup_snoc_decide {A} (l : list A) (j : nat) (x : A) :
  (l ++ [x]) !! j = if decide (j = length l) then Some x else l !! j.
Proof.
  case_decide as Hj.
  - subst j. rewrite lookup_app_r by lia. rewrite Nat.sub_diag. reflexivity.
  - destruct (decide (j < length l)) as [Hlt|Hge].
    + apply lookup_app_l; assumption.
    + rewrite (proj2 (lookup_ge_None l j)) by lia.
      apply lookup_ge_None. rewrite length_app; simpl. lia.
Qed.

(** The tail shared by [ConcreteStateA.handle1] and
    [ConcreteStateB.handle2]. *)
Lemma install_fresh_ok c k w Cx :
  contexts w !! c = Some Cx →
  (fresh ← new_State k; transitionTo c fresh) w =
  Ok tt {| contexts :=
             <[c := {| state := Some (length (states w)) |}]> (contexts w);
           states := states w ++ [{| cls := k; context := Some c |}];
           console := console w ++ [transition_line k] |}.
Proof.
  intros Hc. unfold mbind at 1. unfold M_bind, new_State, alloc_state.
  rewrite (transitionTo_ok c _ _ Cx {| cls := k; context := None |}); cbn.
  - unfold transitioned; cbn. rewrite insert_snoc. reflexivity.
  - assumption.
  - rewrite lookup_snoc_decide, decide_True by reflexivity. reflexivity.
Qed.

Lemma new_Context_ok s w St :
  states w !! s = Some St →
  new_Context s w = Ok (length (contexts w)) (created s (cls St) w).
Proof.
  intros Hs. unfold new_Context, alloc_context, mbind, M_bind.
  rewrite (transitionTo_ok _ s _ {| state := None |} St); cbn.
  - unfold transitioned, created; cbn. rewrite insert_snoc. reflexivity.
  - rewrite lookup_snoc_decide, decide_True by reflexivity. reflexivity.
  - assumption.
Qed.

Lemma new_Context_inv s w c w' :
  new_Context s w = Ok c w' →
  ∃ St, states w !! s = Some St ∧ c = length (contexts w) ∧
        w' = created s (cls St) w.
Proof.
  destruct (states w !! s) as [St|] eqn:Hs.
  - rewrite (new_Context_ok s w St Hs). intros [= <- <-]. eauto.
  - unfold new_Context, alloc_context, transitionTo, read_state, mbind, M_bind.
    cbn. rewrite Hs. discriminate.
Qed.

Lemma transitionTo_dangling c s w :
  contexts w !! c = None → transitionTo c s w = Err Dangling.
Proof.
  intros Hc. unfold transitionTo, read_state, write_context, log, mbind, M_bind.
  destruct (states w !! s); cbn; [rewrite Hc|]; reflexivity.
Qed.

Lemma bind_Ok {A B} (m : M A) (f : A → M B) w a w1 :
  m w = Ok a w1 → (m ≫= f) w = f a w1.
Proof. intros H. unfold mbind, M_bind. rewrite H. reflexivity. Qed.

Lemma bind_Err {A B} (m : M A) (f : A → M B) w e :
  m w = Err e → (m ≫= f) w = Err e.
Proof. intros H. unfold mbind, M_bind. rewrite H. reflexivity. Qed.

Lemma move_spec (l1 l2 : string) (o : option cref) k w :
  (log l1;; log l2;; ctx ← deref o; fresh ← new_State k;
   transitionTo ctx fresh) w
  = move_outcome o k [l1; l2] w.
Proof.
  rewrite (bind_Ok (log l1) _ w tt (printed [l1] w)) by reflexivity.
  rewrite (bind_Ok (log l2) _ _ tt (printed [l1; l2] w))
    by (unfold log, printed; cbn; rewrite <- app_assoc; reflexivity).
  destruct o as [c|]; cbn; [|reflexivity].
  rewrite (bind_Ok (mret c) _ _ c (printed [l1; l2] w)) by reflexivity.
  destruct (contexts w !! c) as [Cx|] eqn:Hc.
  - rewrite (install_fresh_ok c k _ Cx) by exact Hc.
    unfold moved, printed; cbn. rewrite <- !app_assoc. reflexivity.
  - rewrite (bind_Ok (new_State k) _ _ (length (states w))
               {| contexts := contexts w;
                  states := states w ++ [{| cls := k; context := None |}];
                  console := console w ++ [l1; l2] |}) by reflexivity.
    apply transitionTo_dangling. exact Hc.
Qed.

Lemma handle1_spec this w :
  handle1 this w =
  match states w !! this with
  | None => Err Dangling
  | Some St =>
      match cls St with
      | ConcreteStateA =>
          move_outcome (context St) ConcreteStateB
            ["ConcreteStateA handles request1.";
             "ConcreteStateA wants to change the state of the context."] w
      | ConcreteStateB => Ok tt (printed ["ConcreteStateB handles request1."] w)
      end
  end.
Proof.
  unfold handle1. destruct (states w !! this) as [St|] eqn:Hs.
  - rewrite (bind_Ok (read_state this) _ w St w)
      by (unfold read_state; rewrite Hs; reflexivity).
    destruct (cls St); [apply move_spec | reflexivity].
  - apply bind_Err. unfold read_state. rewrite Hs. reflexivity.
Qed.

Lemma handle2_spec this w :
  handle2 this w =
  match states w !! this with
  | None => Err Dangling
  | Some St =>
      match cls St with
      | ConcreteStateA => Ok tt (printed ["ConcreteStateA handles request2."] w)
      | ConcreteStateB =>
          move_outcome (context St) ConcreteStateA
            ["ConcreteStateB handles request2.";
             "ConcreteStateB wants to change the state of the context."] w
      end
  end.
Proof.
  unfold handle2. destruct (states w !! this) as [St|] eqn:Hs.
  - rewrite (bind_Ok (read_state this) _ w St w)
      by (unfold read_state; rewrite Hs; reflexivity).
    destruct (cls St); [reflexivity | apply move_spec].
  - apply bind_Err. unfold read_state. rewrite Hs. reflexivity.
Qed.

Lemma request_spec (handle : sref → M unit) this w :
  (Cx ← read_context this; held ← deref (state Cx); handle held) w =
  match contexts w !! this with
  | None => Err Dangling
  | Some Cx =>
      match state Cx with
      | None => Err TypeError
      | Some held => handle held w
      end
  end.
Proof.
  unfold read_context, mbind, M_bind.
  destruct (contexts w !! this) as [[[held|]]|]; reflexivity.
Qed.

Lemma request1_held c s w :
  held_state w c = Some s → request1 c w = handle1 s w.
Proof.
  unfold held_state, request1. rewrite request_spec.
  destruct (contexts w !! c) as [Cx|]; cbn; [|discriminate].
  intros ->. reflexivity.
Qed.

Lemma request2_held c s w :
  held_state w c = Some s → request2 c w = handle2 s w.
Proof.
  unfold held_state, request2. rewrite request_spec.
  destruct (contexts w !! c) as [Cx|]; cbn; [|discriminate].
  intros ->. reflexivity.
Qed.

End Primitives.

Section Effects.

Lemma transitioned_installs c s k w :
  c < length (contexts w) → s < length (states w) →
  installs w (transitioned c s k w) c s k.
Proof.
  intros Hc Hs. split; intros i; cbn; apply lookup_insert_decide; assumption.
Qed.

Lemma moved_installs c k lines w :
  c < length (contexts w) →
  installs w (moved c k lines w) c (length (states w)) k.
Proof.
  intros Hc. split; intros i; cbn.
  - apply lookup_insert_decide; assumption.
  - apply lookup_snoc_decide.
Qed.

Lemma created_installs s k w :
  s < length (states w) →
  installs w (created s k w) (length (contexts w)) s k.
Proof.
  intros Hs. split; intros i; cbn.
  - apply lookup_snoc_decide.
  - apply lookup_insert_decide; assumption.
Qed.

Lemma installs_held w w' c s k c0 :
  installs w w' c s k →
  held_state w' c0 = if decide (c0 = c) then Some s else held_state w c0.
Proof.
  intros [Hc _]. unfold held_state. rewrite Hc.
  case_decide; reflexivity.
Qed.

Lemma installs_backref w w' c s k s0 :
  installs w w' c s k →
  backref w' s0 = if decide (s0 = s) then Some c else backref w s0.
Proof.
  intros [_ Hs]. unfold backref. rewrite Hs.
  case_decide; reflexivity.
Qed.

Lemma move_outcome_effect op o k lines w w' :
  (∀ c, target op w c (length (states w))) →
  move_outcome o k lines w = Ok tt w' → effect op w w'.
Proof.
  intros Ht. unfold move_outcome.
  destruct o as [c|]; [|discriminate].
  destruct (contexts w !! c) as [Cx|] eqn:Hc; [|discriminate].
  intros [= <-]. apply (eff_install _ _ _ c (length (states w)) k).
  - apply moved_installs. eapply lookup_lt_Some; eassumption.
  - apply Ht.
Qed.

Lemma handle1_effect c this w w' :
  handle1 this w = Ok tt w' → effect (Request1 c) w w'.
Proof.
  rewrite handle1_spec.
  destruct (states w !! this) as [St|]; [|discriminate].
  destruct (cls St).
  - apply move_outcome_effect. intros ?; reflexivity.
  - intros [= <-]. apply eff_quiet; reflexivity.
Qed.

Lemma handle2_effect c this w w' :
  handle2 this w = Ok tt w' → effect (Request2 c) w w'.
Proof.
  rewrite handle2_spec.
  destruct (states w !! this) as [St|]; [|discriminate].
  destruct (cls St).
  - intros [= <-]. apply eff_quiet; reflexivity.
  - apply move_outcome_effect. intros ?; reflexivity.
Qed.

Lemma exec_effect op w w' : exec op w = Ok tt w' → effect op w w'.
Proof.
  destruct op as [| |s|c s|c|c]; cbn.
  - intros [= <-]. apply (eff_alloc _ _ _ ConcreteStateA); reflexivity.
  - intros [= <-]. apply (eff_alloc _ _ _ ConcreteStateB); reflexivity.
  - unfold mbind, M_bind.
    destruct (new_Context s w) as [c w1|e] eqn:Hn; [|discriminate].
    intros [= <-]. apply new_Context_inv in Hn as (St & Hs & -> & ->).
    apply (eff_install _ _ _ (length (contexts w)) s (cls St)).
    + apply created_installs. eapply lookup_lt_Some; eassumption.
    + split; reflexivity.
  - intros (Cx & St & Hc & Hs & ->)%transitionTo_inv.
    apply (eff_install _ _ _ c s (cls St)).
    + apply transitioned_installs; eapply lookup_lt_Some; eassumption.
    + split; reflexivity.
  - unfold request1. rewrite request_spec.
    destruct (contexts w !! c) as [[[held|]]|]; cbn; try discriminate.
    apply handle1_effect.
  - unfold request2. rewrite request_spec.
    destruct (contexts w !! c) as [[[held|]]|]; cbn; try discriminate.
    apply handle2_effect.
Qed.

Lemma state_set_effect op w w' :
  state_set w → effect op w w' → state_set w'.
Proof.
  intros Hinv [Hc Hs | k Hc Hs | c s k [Hc Hs] _] c0 Cx0.
  - rewrite Hc, Hs. apply Hinv.
  - rewrite Hc, Hs. intros (s & ? & [St HSt])%Hinv.
    exists s. split; [assumption|]. exists St.
    apply lookup_app_l_Some. assumption.
  - rewrite Hc. case_decide.
    + intros [= <-]. exists s. split; [reflexivity|].
      rewrite Hs, decide_True by reflexivity. eauto.
    + intros (s1 & ? & Hlive)%Hinv. exists s1. split; [assumption|].
      rewrite Hs. case_decide; eauto.
Qed.

Lemma attached_effect op w w' :
  attached w → effect op w w' → attached w'.
Proof.
  intros Hinv [Hc Hs | k Hc Hs | c s k [Hc Hs] _] c0 Cx0.
  - rewrite Hc, Hs. apply Hinv.
  - rewrite Hc, Hs. intros (s & St & c' & ? & HSt & ? & ?)%Hinv.
    exists s, St, c'. repeat split; try assumption.
    apply lookup_app_l_Some. assumption.
  - assert (Hlive : ∀ c1, is_Some (contexts w !! c1) →
                          is_Some (contexts w' !! c1)).
    { intros c1 ?. rewrite Hc. case_decide; eauto. }
    assert (Hself : is_Some (contexts w' !! c)).
    { rewrite Hc, decide_True by reflexivity. eauto. }
    rewrite Hc. case_decide.
    + intros [= <-]. exists s, {| cls := k; context := Some c |}, c.
      rewrite Hs, decide_True by reflexivity. auto.
    + intros (s1 & St & c' & ? & HSt & ? & ?)%Hinv.
      destruct (decide (s1 = s)) as [Heq|Hne].
      * exists s1, {| cls := k; context := Some c |}, c.
        rewrite Hs, decide_True by assumption. auto.
      * exists s1, St, c'. rewrite Hs, decide_False by assumption. auto.
Qed.

Lemma backref_inv_fresh w c s :
  backref_inv w → length (states w) ≤ s → held_state w c ≠ Some s.
Proof.
  intros Hinv Hs Hheld. apply Hinv in Hheld. unfold backref in Hheld.
  rewrite (proj2 (lookup_ge_None (states w) s) Hs) in Hheld. discriminate.
Qed.

Lemma backref_inv_effect op w w' :
  backref_inv w → exclusive op w → effect op w w' → backref_inv w'.
Proof.
  intros Hinv Hex [Hc Hs | k Hc Hs | c s k Hi Ht] c0 s0.
  - unfold held_state, backref. rewrite Hc, Hs. apply Hinv.
  - unfold held_state, backref. rewrite Hc, Hs. intros Hheld.
    specialize (Hinv _ _ Hheld). unfold backref in Hinv.
    destruct (states w !! s0) as [St|] eqn:HSt; [|discriminate].
    rewrite (lookup_app_l_Some _ _ _ _ HSt). exact Hinv.
  - assert (Hsole : sole_holder w c s).
    { destruct op; cbn in Ht, Hex; try tauto.
      - destruct Ht as [-> ->]. exact Hex.
      - destruct Ht as [-> ->]. exact Hex.
      - subst s. intros holder Hh.
        exfalso. exact (backref_inv_fresh w holder _ Hinv (le_n _) Hh).
      - subst s. intros holder Hh.
        exfalso. exact (backref_inv_fresh w holder _ Hinv (le_n _) Hh). }
    rewrite (installs_held _ _ _ _ _ c0 Hi), (installs_backref _ _ _ _ _ s0 Hi).
    case_decide as Hc0.
    + intros [= <-]. rewrite decide_True by reflexivity. congruence.
    + intros Hheld. case_decide as Hs0.
      * subst s0. apply Hsole in Hheld. contradiction.
      * apply Hinv. assumption.
Qed.

End Effects.

Section Scripts.

Lemma run_cons_Ok op rest w w1 :
  exec op w = Ok tt w1 → run (op :: rest) w = run rest w1.
Proof. intros H. exact (bind_Ok (exec op) (λ _, run rest) w tt w1 H). Qed.

Lemma run_cons_inv op rest w w' :
  run (op :: rest) w = Ok tt w' →
  ∃ w1, exec op w = Ok tt w1 ∧ run rest w1 = Ok tt w'.
Proof.
  cbn. unfold mbind, M_bind.
  destruct (exec op w) as [[] w1|e]; [|discriminate]. eauto.
Qed.

Lemma held_state_live w c s : held_state w c = Some s → c < length (contexts w).
Proof.
  unfold held_state. destruct (contexts w !! c) eqn:Hc; [|discriminate].
  intros _. eapply lookup_lt_Some; eassumption.
Qed.

Lemma installs_owns w w' c s k : installs w w' c s k → owns w' c k.
Proof.
  intros Hi. exists s. split.
  - rewrite (installs_held _ _ _ _ _ c Hi), decide_True; reflexivity.
  - destruct Hi as [_ Hs]. rewrite Hs, decide_True; reflexivity.
Qed.

Lemma owns_class w c k : owns w c k → active_class w c = Some k.
Proof.
  intros (s & Hheld & Hs). unfold active_class.
  rewrite Hheld; cbn. rewrite Hs. reflexivity.
Qed.

Lemma move_outcome_owns c k lines w :
  c < length (contexts w) →
  ∃ w', move_outcome (Some c) k lines w = Ok tt w' ∧ owns w' c k.
Proof.
  intros Hc. unfold move_outcome.
  destruct (lookup_lt_is_Some_2 _ _ Hc) as [Cx ->].
  eexists; split; [reflexivity|].
  eapply installs_owns, moved_installs; assumption.
Qed.

Lemma request_owns w c k r :
  owns w c k →
  ∃ w', exec (request_op c r) w = Ok tt w' ∧ owns w' c (machine_step k r).
Proof.
  intros Hown. pose proof Hown as (s & Hheld & Hs).
  pose proof (held_state_live _ _ _ Hheld) as Hc.
  destruct r; cbn.
  - rewrite (request1_held _ _ _ Hheld), handle1_spec, Hs; cbn.
    destruct k; cbn.
    + apply move_outcome_owns; assumption.
    + eexists; split; [reflexivity|]. exact Hown.
  - rewrite (request2_held _ _ _ Hheld), handle2_spec, Hs; cbn.
    destruct k; cbn.
    + eexists; split; [reflexivity|]. exact Hown.
    + apply move_outcome_owns; assumption.
Qed.

Lemma run_requests_owns rs : ∀ w c k,
  owns w c k →
  ∃ w', run (map (request_op c) rs) w = Ok tt w' ∧
        owns w' c (machine_run k rs).
Proof.
  induction rs as [|r rs IH]; intros w c k Hown.
  - exists w. split; [reflexivity | exact Hown].
  - destruct (request_owns w c k r Hown) as (w1 & Hex & Hown1).
    destruct (IH w1 c _ Hown1) as (w' & Hrun & Hown').
    exists w'. split; [|exact Hown'].
    change (map (request_op c) (r :: rs))
      with (request_op c r :: map (request_op c) rs).
    rewrite (run_cons_Ok _ _ _ _ Hex). exact Hrun.
Qed.

Lemma construct_owns w k :
  ∃ w1, run [if decide (k = ConcreteStateA) then NewConcreteStateA
             else NewConcreteStateB;
             NewContext (length (states w))] w = Ok tt w1 ∧
        owns w1 (length (contexts w)) k.
Proof.
  set (w0 := {| contexts := contexts w;
                states := states w ++ [{| cls := k; context := None |}];
                console := console w |}).
  assert (Hs : states w0 !! length (states w)
               = Some {| cls := k; context := None |}).
  { cbn. rewrite lookup_snoc_decide, decide_True; reflexivity. }
  exists (created (length (states w)) k w0). split.
  - rewrite (run_cons_Ok _ _ _ w0) by (destruct k; reflexivity).
    rewrite (run_cons_Ok _ _ _ (created (length (states w)) k w0)).
    + reflexivity.
    + cbn. rewrite (bind_Ok _ _ _ _ _ (new_Context_ok _ _ _ Hs)). reflexivity.
  - apply (installs_owns w0 _ _ (length (states w))).
    apply (created_installs _ k w0). eapply lookup_lt_Some; eassumption.
Qed.

End Scripts.

(** * The claims about the State example *)

Section StateClaims.

(** C1. A context constructed with a [ConcreteStateA] (in any world, by
    [new Context(new ConcreteStateA())]) and then sent any sequence of
    [request1]/[request2] calls completes every call, and the class of the
    state it holds is the one the two-state machine of the specification
    reaches from A on that sequence: A moves to B on [request1] only, B moves
    to A on [request2] only.  Since the sequence is arbitrary, this holds
    after every prefix. *)
Theorem requests_follow_machine (w : World) (rs : list Request) :
  ∃ w',
    run (NewConcreteStateA :: NewContext (length (states w))
           :: map (request_op (length (contexts w))) rs) w = Ok tt w' ∧
    active_class w' (length (contexts w))
      = Some (machine_run ConcreteStateA rs).
Proof.
  destruct (construct_owns w ConcreteStateA) as (w1 & Hrun1 & Hown1).
  destruct (run_requests_owns rs w1 _ _ Hown1) as (w' & Hrun & Hown').
  exists w'. split; [|apply owns_class; exact Hown'].
  rewrite decide_True in Hrun1 by reflexivity.
  apply run_cons_inv in Hrun1 as (wa & Ha & Hrun1).
  apply run_cons_inv in Hrun1 as (wb & Hb & Hrun1).
  cbn in Hrun1. injection Hrun1 as <-.
  rewrite (run_cons_Ok _ _ _ _ Ha), (run_cons_Ok _ _ _ _ Hb). exact Hrun.
Qed.

(** C2. The client code [new Context(new ConcreteStateA()); request1();
    request2()] run from the empty world completes, and the console then
    holds exactly these seven lines in this order. *)
Theorem client_code_trace :
  ∃ w,
    run client_code empty_world = Ok tt w ∧
    console w =
      ["Context: Transition to ConcreteStateA.";
       "ConcreteStateA handles request1.";
       "ConcreteStateA wants to change the state of the context.";
       "Context: Transition to ConcreteStateB.";
       "ConcreteStateB handles request2.";
       "ConcreteStateB wants to change the state of the context.";
       "Context: Transition to ConcreteStateA."].
Proof. eexists. split; vm_compute; reflexivity. Qed.

Lemma active_class_inv w c k :
  active_class w c = Some k →
  ∃ s St, held_state w c = Some s ∧ states w !! s = Some St ∧ cls St = k.
Proof.
  unfold active_class.
  destruct (held_state w c) as [s|]; cbn; [|discriminate].
  destruct (states w !! s) as [St|] eqn:Hs; cbn; [|discriminate].
  intros [= <-]. eauto.
Qed.

Lemma active_class_intro w c s St :
  held_state w c = Some s → states w !! s = Some St →
  active_class w c = Some (cls St).
Proof.
  intros Hheld Hs. unfold active_class. rewrite Hheld; cbn. rewrite Hs.
  reflexivity.
Qed.

Lemma attached_backref w c s :
  attached w → held_state w c = Some s →
  ∃ c', backref w s = Some c' ∧ c' < length (contexts w).
Proof.
  unfold held_state, backref. intros Hatt Hheld.
  destruct (contexts w !! c) as [Cx|] eqn:Hc; [|discriminate]. cbn in Hheld.
  destruct (Hatt c Cx Hc) as (s1 & St & c' & Hst & HSt & Hctx & Hlive).
  assert (s1 = s) as -> by congruence.
  exists c'. rewrite HSt; cbn. split; [assumption|].
  apply lookup_lt_is_Some. assumption.
Qed.

Lemma owns_of_backref w c s St :
  held_state w c = Some s → states w !! s = Some St →
  context St = Some c → owns w c (cls St).
Proof.
  intros Hheld Hs Hctx. exists s. split; [exact Hheld|].
  rewrite Hs. destruct St as [k o]; cbn in *. subst o. reflexivity.
Qed.

Lemma owns_backref w c k s St :
  owns w c k → held_state w c = Some s → states w !! s = Some St →
  context St = Some c.
Proof.
  intros (s' & Hheld' & Hs') Hheld Hs.
  assert (s' = s) as -> by congruence.
  rewrite Hs in Hs'. injection Hs' as ->. reflexivity.
Qed.

(** C3. In every world where each held state object is attached to some
    context -- every world a client script reaches is one, see
    [attached_preserved] -- a context whose state is of class A completes
    [request1] and then [request2], and holds a state of class A afterwards.
    When the held state points back to the context itself, as it does after
    a construction followed by requests, this is the full cycle: between the
    two calls the context holds a state of class B pointing back to it.
    When the held state points back to another context, the context is of
    class A between the two calls as well. *)
Theorem request1_request2_round_trip (w : World) (c : cref) :
  attached w →
  active_class w c = Some ConcreteStateA →
  ∃ w1 w',
    request1 c w = Ok tt w1 ∧
    request2 c w1 = Ok tt w' ∧
    run [Request1 c; Request2 c] w = Ok tt w' ∧
    active_class w' c = Some ConcreteStateA ∧
    (owns w c ConcreteStateA →
       active_class w1 c = Some ConcreteStateB ∧
       owns w1 c ConcreteStateB ∧
       owns w' c ConcreteStateA) ∧
    (¬ owns w c ConcreteStateA →
       active_class w1 c = Some ConcreteStateA).
Proof.
  intros Hatt (s & St & Hheld & Hs & Hk)%active_class_inv.
  destruct (attached_backref w c s Hatt Hheld) as (c' & Hback & Hc').
  unfold backref in Hback. rewrite Hs in Hback. cbn in Hback.
  destruct (lookup_lt_is_Some_2 _ _ Hc') as [Cx' HCx'].
  set (w1 := moved c' ConcreteStateB
               ["ConcreteStateA handles request1.";
                "ConcreteStateA wants to change the state of the context."] w).
  assert (H1 : request1 c w = Ok tt w1).
  { rewrite (request1_held _ _ _ Hheld), handle1_spec, Hs, Hk, Hback.
    unfold move_outcome. rewrite HCx'. reflexivity. }
  pose proof (moved_installs c' ConcreteStateB
                ["ConcreteStateA handles request1.";
                 "ConcreteStateA wants to change the state of the context."]
                w Hc') as Hi.
  fold w1 in Hi.
  destruct (decide (c' = c)) as [Heq|Hne].
  - subst c'.
    pose proof (installs_owns _ _ _ _ _ Hi) as Hown1.
    destruct (request_owns w1 c ConcreteStateB RequestTwo Hown1)
      as (w' & H2 & Hown').
    cbn in H2. exists w1, w'.
    split; [exact H1|]. split; [exact H2|].
    split.
    { rewrite (run_cons_Ok _ _ _ w1) by exact H1.
      rewrite (run_cons_Ok _ _ _ w') by exact H2. reflexivity. }
    split; [apply owns_class; exact Hown'|].
    split.
    + intros _. split; [apply owns_class; exact Hown1|]. split; assumption.
    + intros Hnot. exfalso. apply Hnot. rewrite <- Hk.
      exact (owns_of_backref w c s St Hheld Hs Hback).
  - assert (Hheld1 : held_state w1 c = Some s).
    { rewrite (installs_held _ _ _ _ _ c Hi), decide_False by congruence.
      exact Hheld. }
    assert (Hs1 : states w1 !! s = Some St).
    { destruct Hi as [_ Hst]. rewrite Hst, decide_False; [assumption|].
      apply lookup_lt_Some in Hs. lia. }
    assert (H2 : request2 c w1
                 = Ok tt (printed ["ConcreteStateA handles request2."] w1)).
    { rewrite (request2_held _ _ _ Hheld1), handle2_spec, Hs1, Hk.
      reflexivity. }
    exists w1, (printed ["ConcreteStateA handles request2."] w1).
    split; [exact H1|]. split; [exact H2|].
    split.
    { rewrite (run_cons_Ok _ _ _ w1) by exact H1.
      rewrite (run_cons_Ok (Request2 c) _ _ _ H2). reflexivity. }
    split; [rewrite <- Hk; exact (active_class_intro w1 c s St Hheld1 Hs1)|].
    split.
    + intros Hown. exfalso. apply Hne.
      pose proof (owns_backref w c _ s St Hown Hheld Hs) as Hctx.
      congruence.
    + intros _. rewrite <- Hk.
      exact (active_class_intro w1 c s St Hheld1 Hs1).
Qed.

Lemma request1_request2_round_trip_witness :
  let w := {| contexts := [{| state := Some 0 |}];
              states := [{| cls := ConcreteStateA; context := Some 0 |}];
              console := ["Context: Transition to ConcreteStateA."] |} in
  ∃ w1 w',
    request1 0 w = Ok tt w1 ∧
    request2 0 w1 = Ok tt w' ∧
    run [Request1 0; Request2 0] w = Ok tt w' ∧
    active_class w1 0 = Some ConcreteStateB ∧
    active_class w' 0 = Some ConcreteStateA.
Proof.
  intros w.
  assert (Hatt : attached w).
  { intros [|c] Cx; cbn; [|intros [=]].
    intros [= <-]. exists 0, {| cls := ConcreteStateA; context := Some 0 |}, 0.
    cbn. eauto. }
  assert (Hown : owns w 0 ConcreteStateA).
  { exists 0. split; reflexivity. }
  destruct (request1_request2_round_trip w 0 Hatt eq_refl)
    as (w1 & w' & H1 & H2 & Hrun & HA & Hcycle & _).
  destruct (Hcycle Hown) as (HB & _ & _).
  exists w1, w'. auto.
Defined.

Lemma non_trigger_quiet w c k :
  active_class w c = Some k →
  ∃ line, exec (non_trigger k c) w = Ok tt (printed [line] w).
Proof.
  intros (s & St & Hheld & Hs & Hk)%active_class_inv.
  destruct k; cbn.
  - rewrite (request2_held _ _ _ Hheld), handle2_spec, Hs, Hk. eauto.
  - rewrite (request1_held _ _ _ Hheld), handle1_spec, Hs, Hk. eauto.
Qed.

(** C4. For every context, whatever else the world holds, and every [n],
    calling the non-triggering request [n] times in a row ([request2] while
    the held state is of class A, [request1] while it is of class B)
    completes and leaves the class of the held state as it was; the two
    stores are not modified at all. *)
Theorem non_trigger_repeated (w : World) (c : cref) (k : StateClass) (n : nat) :
  active_class w c = Some k →
  ∃ w',
    run (replicate n (non_trigger k c)) w = Ok tt w' ∧
    active_class w' c = Some k ∧
    contexts w' = contexts w ∧ states w' = states w.
Proof.
  revert w. induction n as [|n IH]; intros w Hk.
  - exists w. cbn. auto.
  - destruct (non_trigger_quiet w c k Hk) as (line & Hex).
    destruct (IH (printed [line] w) Hk) as (w' & Hrun & Hk' & Hc & Hs).
    exists w'. cbn [replicate].
    rewrite (run_cons_Ok _ _ _ _ Hex). auto.
Qed.

Lemma non_trigger_repeated_witness :
  ∃ w, run [NewConcreteStateA; NewContext 0] empty_world = Ok tt w ∧
       ∃ w', run (replicate 3 (non_trigger ConcreteStateA 0)) w = Ok tt w' ∧
             active_class w' 0 = Some ConcreteStateA ∧
             contexts w' = contexts w ∧ states w' = states w.
Proof.
  eexists. split; [reflexivity|].
  apply non_trigger_repeated. reflexivity.
Defined.

Lemma run_invariant (P : Op → World → Prop) (I : World → Prop) :
  (∀ op w w', I w → P op w → effect op w w' → I w') →
  ∀ ops w w', I w → along P ops w → run ops w = Ok tt w' → I w'.
Proof.
  intros Hstep. induction ops as [|op ops IH]; intros w w' HI Hal Hrun.
  - cbn in Hrun. injection Hrun as <-. exact HI.
  - apply run_cons_inv in Hrun as (w1 & Hex & Hrun).
    destruct Hal as [HP Hal]. rewrite Hex in Hal.
    apply (IH w1 w'); [|assumption..].
    apply (Hstep op w w1); [assumption..|]. apply exec_effect. exact Hex.
Qed.

Lemma along_True ops : ∀ w, along (λ _ _, True) ops w.
Proof.
  induction ops as [|op ops IH]; intros w; cbn; [exact I|].
  split; [exact I|]. destruct (exec op w); [apply IH | exact I].
Qed.

Lemma attached_preserved (ops : list Op) (w0 w : World) :
  attached w0 → run ops w0 = Ok tt w → attached w.
Proof.
  intros H0 Hrun.
  refine (run_invariant (λ _ _, True) attached _ ops w0 w H0
            (along_True ops w0) Hrun).
  intros op w1 w2 HI _ Heff. exact (attached_effect op w1 w2 HI Heff).
Qed.

(** C5. Whatever script of operations is run -- constructions of contexts,
    [transitionTo], [request1], [request2], creations of states -- from a
    world where every context holds a state object, every context of every
    world it reaches holds a state object: the field [state] of a context is
    set once its constructor has returned, and stays set. *)
Theorem state_never_unset (ops : list Op) (w0 w : World) :
  state_set w0 →
  run ops w0 = Ok tt w →
  state_set w.
Proof.
  intros H0 Hrun.
  refine (run_invariant (λ _ _, True) state_set _ ops w0 w H0
            (along_True ops w0) Hrun).
  intros op w1 w2 HI _ Heff. exact (state_set_effect op w1 w2 HI Heff).
Qed.

Lemma state_set_empty : state_set empty_world.
Proof. intros c Cx [=]. Qed.

Lemma state_never_unset_witness :
  ∃ w, run client_code empty_world = Ok tt w ∧ state_set w.
Proof.
  eexists. split; [vm_compute; reflexivity|].
  apply (state_never_unset client_code empty_world).
  - exact state_set_empty.
  - vm_compute; reflexivity.
Defined.

(** C6 does not hold of every reachable world: the same state object can be
    given to two contexts; both hold it, and its back-reference points to the
    second one only. *)
Lemma shared_state_backref :
  ∃ w,
    run [NewConcreteStateA; NewContext 0; NewContext 0] empty_world = Ok tt w ∧
    held_state w 0 = Some 0 ∧
    backref w 0 = Some 1 ∧
    ¬ backref_inv w.
Proof.
  eexists. split; [vm_compute; reflexivity|].
  split; [reflexivity|]. split; [reflexivity|].
  intros Hinv. specialize (Hinv 0 0 eq_refl). discriminate Hinv.
Qed.

(** A state object that has been replaced keeps the back-reference it had:
    after [request1] in the client code the first state object still points
    to the context, which now holds the second one. *)
Lemma replaced_state_keeps_backref :
  ∃ w,
    run [NewConcreteStateA; NewContext 0; Request1 0] empty_world = Ok tt w ∧
    backref w 0 = Some 0 ∧
    held_state w 0 = Some 1.
Proof. eexists. split; [vm_compute; reflexivity|]. split; reflexivity. Qed.

Lemma setContext_inv s c w w' :
  setContext s c w = Ok tt w' →
  ∃ St, states w !! s = Some St ∧
        w' = {| contexts := contexts w;
                states := <[s := {| cls := cls St; context := Some c |}]>
                            (states w);
                console := console w |}.
Proof.
  unfold setContext, read_state, write_state, mbind, M_bind.
  destruct (states w !! s) as [St|] eqn:Hs; [|discriminate].
  cbn. rewrite Hs. intros [= <-]. eauto.
Qed.

(** [setContext] called on a held state object with another context breaks
    the invariant as well, which is why the amended claim has a condition on
    it. *)
Lemma setContext_alone_breaks_backref :
  ∃ w w',
    run [NewConcreteStateA; NewContext 0; NewConcreteStateB; NewContext 1]
      empty_world = Ok tt w ∧
    backref w 0 = Some 0 ∧
    setContext 0 1 w = Ok tt w' ∧
    held_state w' 0 = Some 0 ∧
    backref w' 0 = Some 1.
Proof.
  do 2 eexists. split; [vm_compute; reflexivity|].
  split; [reflexivity|]. split; [vm_compute; reflexivity|].
  split; reflexivity.
Qed.

Lemma backref_inv_call a w w' :
  backref_inv w → StateCalls.exclusive_call a w →
  StateCalls.call a w = Ok tt w' → backref_inv w'.
Proof.
  intros Hinv Hex Hcall. destruct a as [op|s c|s|s]; cbn in Hex, Hcall.
  - exact (backref_inv_effect op w w' Hinv Hex (exec_effect op w w' Hcall)).
  - apply setContext_inv in Hcall as (St & Hs & ->).
    intros c0 s0 Hheld. change (held_state w c0 = Some s0) in Hheld.
    unfold backref; cbn.
    rewrite lookup_insert_decide by (eapply lookup_lt_Some; eassumption).
    case_decide as Hs0.
    + subst s0. cbn. rewrite (Hex c0 Hheld). reflexivity.
    + exact (Hinv c0 s0 Hheld).
  - exact (backref_inv_effect (Request1 0) w w' Hinv I
             (handle1_effect 0 s w w' Hcall)).
  - exact (backref_inv_effect (Request2 0) w w' Hinv I
             (handle2_effect 0 s w w' Hcall)).
Qed.

Lemma calls_cons_inv a rest w w' :
  StateCalls.calls (a :: rest) w = Ok tt w' →
  ∃ w1, StateCalls.call a w = Ok tt w1 ∧ StateCalls.calls rest w1 = Ok tt w'.
Proof.
  cbn. unfold mbind, M_bind.
  destruct (StateCalls.call a w) as [[] w1|e]; [|discriminate]. eauto.
Qed.

(** C6, amended.  Along every list of calls of the constructors and public
    methods of the classes -- state creation, [new Context], [transitionTo],
    [request1], [request2], and on a state object itself [setContext],
    [handle1], [handle2] -- in which no state object is given to a context
    (through the constructor or [transitionTo]), nor pointed at a context
    (through [setContext]), while a different context holds it, the state
    object held by each context points back to that context. *)
Theorem backref_points_to_holder (l : list StateCalls.Call) (w0 w : World) :
  backref_inv w0 →
  StateCalls.along_calls StateCalls.exclusive_call l w0 →
  StateCalls.calls l w0 = Ok tt w →
  backref_inv w.
Proof.
  revert w0. induction l as [|a l IH]; intros w0 H0 Hal Hrun.
  - cbn in Hrun. injection Hrun as <-. exact H0.
  - apply calls_cons_inv in Hrun as (w1 & Hcall & Hrun).
    destruct Hal as [Hex Hal]. rewrite Hcall in Hal.
    apply (IH w1); [|assumption..].
    exact (backref_inv_call a w0 w1 H0 Hex Hcall).
Qed.

Lemma backref_inv_empty : backref_inv empty_world.
Proof. intros c s [=]. Qed.

Lemma backref_points_to_holder_witness :
  let l := [StateCalls.Through NewConcreteStateA;
            StateCalls.Through (NewContext 0);
            StateCalls.Through (Request1 0);
            StateCalls.SetContext 0 0;
            StateCalls.Handle1 0;
            StateCalls.Through NewConcreteStateA;
            StateCalls.Through (TransitionTo 0 3);
            StateCalls.Through (Request2 0)] in
  ∃ w, StateCalls.calls l empty_world = Ok tt w ∧ backref_inv w.
Proof.
  intros l. eexists. split; [vm_compute; reflexivity|].
  apply (backref_points_to_holder l empty_world).
  - exact backref_inv_empty.
  - vm_compute. repeat split; intros [|c0] Hheld; discriminate Hheld.
  - vm_compute; reflexivity.
Defined.

(** C7 does not hold for every state object: when [transitionTo] is given
    the state object the context already holds, the previously held state is
    still referenced by the context afterwards. *)
Lemma transitionTo_held_state_again :
  ∃ w w',
    run [NewConcreteStateA; NewContext 0] empty_world = Ok tt w ∧
    held_state w 0 = Some 0 ∧
    transitionTo 0 0 w = Ok tt w' ∧
    held_state w' 0 = Some 0.
Proof.
  do 2 eexists. split; [vm_compute; reflexivity|].
  split; [reflexivity|]. split; [vm_compute; reflexivity|]. reflexivity.
Qed.

(** C7, amended.  For every context [c] and every state object [s], of
    either class and whatever its back-reference was, [transitionTo] returns
    and afterwards: [c] holds [s]; [s] points back to [c] and has kept its
    class; exactly one line, the transition line of the class of [s], has
    been added to the console; and a previously held state object other than
    [s] is no longer held by [c] and has not been touched. *)
Theorem transitionTo_installs (w : World) (c : cref) (s : sref)
    (Cx : Context) (St : State) :
  contexts w !! c = Some Cx →
  states w !! s = Some St →
  ∃ w',
    transitionTo c s w = Ok tt w' ∧
    held_state w' c = Some s ∧
    states w' !! s = Some {| cls := cls St; context := Some c |} ∧
    console w' = console w ++ [transition_line (cls St)] ∧
    ∀ old, state Cx = Some old → old ≠ s →
           held_state w' c ≠ Some old ∧ states w' !! old = states w !! old.
Proof.
  intros Hc Hs. exists (transitioned c s (cls St) w).
  pose proof (lookup_lt_Some _ _ _ Hc) as Hlc.
  pose proof (lookup_lt_Some _ _ _ Hs) as Hls.
  pose proof (transitioned_installs c s (cls St) w Hlc Hls) as Hi.
  split; [exact (transitionTo_ok c s w Cx St Hc Hs)|].
  assert (Hheld : held_state (transitioned c s (cls St) w) c = Some s).
  { rewrite (installs_held _ _ _ _ _ c Hi), decide_True; reflexivity. }
  split; [exact Hheld|].
  split; [destruct Hi as [_ Hst]; rewrite Hst, decide_True; reflexivity|].
  split; [reflexivity|].
  intros old _ Hne. split.
  - rewrite Hheld. congruence.
  - destruct Hi as [_ Hst]. rewrite Hst, decide_False; [reflexivity|assumption].
Qed.

Lemma transitionTo_installs_witness :
  let w := {| contexts := [{| state := Some 0 |}];
              states := [{| cls := ConcreteStateA; context := Some 0 |};
                         {| cls := ConcreteStateB; context := None |}];
              console := [] |} in
  ∃ w',
    transitionTo 0 1 w = Ok tt w' ∧
    held_state w' 0 = Some 1 ∧
    states w' !! 1 = Some {| cls := ConcreteStateB; context := Some 0 |} ∧
    console w' = ["Context: Transition to ConcreteStateB."] ∧
    ∀ old, Some 0 = Some old → old ≠ 1 →
           held_state w' 0 ≠ Some old ∧ states w' !! old = states w !! old.
Proof.
  intros w.
  exact (transitionTo_installs w 0 1 {| state := Some 0 |}
           {| cls := ConcreteStateB; context := None |} eq_refl eq_refl).
Defined.

Lemma moved_installs_fresh c k lines w :
  c < length (contexts w) → installs_fresh w (moved c k lines w) c k.
Proof.
  intros Hc. pose proof (moved_installs c k lines w Hc) as Hi.
  split; [apply lookup_ge_None; lia|].
  split; [rewrite (installs_held _ _ _ _ _ c Hi), decide_True; reflexivity|].
  destruct Hi as [_ Hst].
  split; [rewrite Hst, decide_True; reflexivity|].
  intros s0 St0 H0. rewrite Hst, decide_False; [assumption|].
  apply lookup_lt_Some in H0. lia.
Qed.

(** C8. Each call of [ConcreteStateA.handle1] and of
    [ConcreteStateB.handle2], on a state object attached to a context [c],
    returns with [c] holding a state object that did not exist before the
    call: it is the object allocated by the call, of the other class and
    pointing back to [c], and every state object that existed before the
    call is still what it was, so none of them has been taken again. *)
Theorem handlers_install_fresh_state (w : World) (this : sref) (St : State)
    (c : cref) :
  states w !! this = Some St →
  context St = Some c →
  c < length (contexts w) →
  (cls St = ConcreteStateA →
   ∃ w', handle1 this w = Ok tt w' ∧ installs_fresh w w' c ConcreteStateB) ∧
  (cls St = ConcreteStateB →
   ∃ w', handle2 this w = Ok tt w' ∧ installs_fresh w w' c ConcreteStateA).
Proof.
  intros Hs Hctx Hc.
  destruct (lookup_lt_is_Some_2 _ _ Hc) as [Cx HCx].
  split; intros Hk; eexists.
  - split; [|apply moved_installs_fresh; exact Hc].
    rewrite handle1_spec, Hs, Hk, Hctx. unfold move_outcome. rewrite HCx.
    reflexivity.
  - split; [|apply moved_installs_fresh; exact Hc].
    rewrite handle2_spec, Hs, Hk, Hctx. unfold move_outcome. rewrite HCx.
    reflexivity.
Qed.

Lemma handlers_install_fresh_state_witness :
  let wa := {| contexts := [{| state := Some 0 |}];
               states := [{| cls := ConcreteStateA; context := Some 0 |}];
               console := [] |} in
  let wb := {| contexts := [{| state := Some 0 |}];
               states := [{| cls := ConcreteStateB; context := Some 0 |}];
               console := [] |} in
  (∃ w', handle1 0 wa = Ok tt w' ∧ installs_fresh wa w' 0 ConcreteStateB) ∧
  (∃ w', handle2 0 wb = Ok tt w' ∧ installs_fresh wb w' 0 ConcreteStateA).
Proof.
  intros wa wb. split.
  - exact (proj1 (handlers_install_fresh_state wa 0
                    {| cls := ConcreteStateA; context := Some 0 |} 0
                    eq_refl eq_refl (le_n 1)) eq_refl).
  - exact (proj2 (handlers_install_fresh_state wb 0
                    {| cls := ConcreteStateB; context := Some 0 |} 0
                    eq_refl eq_refl (le_n 1)) eq_refl).
Defined.

Lemma exec_progress op w :
  attached w → in_scope op w → ∃ w', exec op w = Ok tt w'.
Proof.
  intros Hatt Hin. destruct op as [| |s|c s|c|c]; cbn in Hin |- *.
  - eexists; reflexivity.
  - eexists; reflexivity.
  - destruct (lookup_lt_is_Some_2 _ _ Hin) as [St Hs].
    eexists. rewrite (bind_Ok _ _ _ _ _ (new_Context_ok s w St Hs)).
    reflexivity.
  - destruct Hin as [Hc Hs].
    destruct (lookup_lt_is_Some_2 _ _ Hc) as [Cx HCx].
    destruct (lookup_lt_is_Some_2 _ _ Hs) as [St HSt].
    eexists. exact (transitionTo_ok c s w Cx St HCx HSt).
  - destruct (lookup_lt_is_Some_2 _ _ Hin) as [Cx HCx].
    destruct (Hatt c Cx HCx) as (s & St & c' & Hst & HSt & Hctx & [Cx' HCx']).
    unfold request1. rewrite request_spec, HCx, Hst, handle1_spec, HSt.
    destruct (cls St); [|eexists; reflexivity].
    rewrite Hctx. unfold move_outcome. rewrite HCx'. eexists; reflexivity.
  - destruct (lookup_lt_is_Some_2 _ _ Hin) as [Cx HCx].
    destruct (Hatt c Cx HCx) as (s & St & c' & Hst & HSt & Hctx & [Cx' HCx']).
    unfold request2. rewrite request_spec, HCx, Hst, handle2_spec, HSt.
    destruct (cls St); [eexists; reflexivity|].
    rewrite Hctx. unfold move_outcome. rewrite HCx'. eexists; reflexivity.
Qed.

(** The failure the specification has in mind is there to be hit: a handler
    called on a state object that was never given to a context reads
    [undefined.transitionTo], and so does a request sent to a context whose
    field [state] is unset. *)
Lemma detached_use_fails :
  (∃ w, run [NewConcreteStateA] empty_world = Ok tt w ∧
        handle1 0 w = Err TypeError) ∧
  request1 0 {| contexts := [{| state := None |}]; states := [];
                console := [] |} = Err TypeError.
Proof. split; [eexists; split|]; reflexivity. Qed.

(** C9. From a world in which every context holds a state object attached
    to some context -- the empty world in particular -- every script of
    constructions, [transitionTo], [request1] and [request2] whose references
    name existing objects runs to its end: no step raises an error, so no
    handler ever reads an unset back-reference and no request an unset
    state, and the world reached satisfies the same condition. *)
Theorem normal_use_never_fails (ops : list Op) (w : World) :
  attached w →
  along in_scope ops w →
  ∃ w', run ops w = Ok tt w' ∧ attached w'.
Proof.
  revert w. induction ops as [|op ops IH]; intros w Hatt Hal.
  - exists w. split; [reflexivity | exact Hatt].
  - destruct Hal as [Hin Hal].
    destruct (exec_progress op w Hatt Hin) as (w1 & Hex).
    rewrite Hex in Hal.
    destruct (IH w1 (attached_effect op w w1 Hatt (exec_effect _ _ _ Hex)) Hal)
      as (w' & Hrun & Hatt').
    exists w'. split; [|exact Hatt'].
    rewrite (run_cons_Ok _ _ _ _ Hex). exact Hrun.
Qed.

Lemma attached_empty : attached empty_world.
Proof. intros c Cx [=]. Qed.

Lemma normal_use_never_fails_witness :
  ∃ w', run client_code empty_world = Ok tt w' ∧ attached w'.
Proof.
  apply (normal_use_never_fails client_code empty_world).
  - exact attached_empty.
  - vm_compute. repeat split; lia.
Defined.

End StateClaims.

(** * The claim about the Facade example *)

Section FacadeClaims.
Import FacadePattern.

(** C10. Whether the subsystems are passed to the constructor or left out
    and created by it, [operation()] returns the same string: the six lines
    below, separated by line feeds, with none after the last. *)
Theorem facade_operation_result
    (s1 : option Subsystem1.t) (s2 : option Subsystem2.t) :
  Facade.operation (Facade.constructor s1 s2) =
  String.concat LF
    ["Facade initializes subsystems:";
     "Subsystem1: Ready!";
     "Subsystem2: Get ready!";
     "Facade orders subsystems to perform the action:";
     "Subsystem1: Go!";
     "Subsystem2: Fire!"].
Proof. destruct s1 as [[]|], s2 as [[]|]; reflexivity. Qed.

End FacadeClaims.

(** * Further properties of the State example *)

Section StateOutcomes.
Import StateTrace.

Lemma move_outcome_outcome o k lines w w' :
  move_outcome o k lines w = Ok tt w' → outcome w w'.
Proof.
  unfold move_outcome. destruct o as [c|]; [|discriminate].
  destruct (contexts w !! c) as [Cx|] eqn:Hc; [|discriminate].
  intros [= <-]. exact (out_moved w c k lines Cx Hc).
Qed.

Lemma exec_outcome op w w' : exec op w = Ok tt w' → outcome w w'.
Proof.
  destruct op as [| |s|c s|c|c]; cbn.
  - intros [= <-]. apply out_alloc.
  - intros [= <-]. apply out_alloc.
  - unfold mbind, M_bind.
    destruct (new_Context s w) as [c w1|e] eqn:Hn; [|discriminate].
    intros [= <-]. apply new_Context_inv in Hn as (St & Hs & -> & ->).
    exact (out_created w s St Hs).
  - intros (Cx & St & Hc & Hs & ->)%transitionTo_inv.
    exact (out_transitioned w c s Cx St Hc Hs).
  - unfold request1. rewrite request_spec.
    destruct (contexts w !! c) as [[[held|]]|]; cbn; try discriminate.
    rewrite handle1_spec.
    destruct (states w !! held) as [St|]; [|discriminate].
    destruct (cls St).
    + apply move_outcome_outcome.
    + intros [= <-]. apply out_printed.
  - unfold request2. rewrite request_spec.
    destruct (contexts w !! c) as [[[held|]]|]; cbn; try discriminate.
    rewrite handle2_spec.
    destruct (states w !! held) as [St|]; [|discriminate].
    destruct (cls St).
    + intros [= <-]. apply out_printed.
    + apply move_outcome_outcome.
Qed.

Lemma run_outcomes (R : World → World → Prop) :
  (∀ w, R w w) →
  (∀ w1 w2 w3, R w1 w2 → R w2 w3 → R w1 w3) →
  (∀ w w', outcome w w' → R w w') →
  ∀ ops w w', run ops w = Ok tt w' → R w w'.
Proof.
  intros Hrefl Htrans Hstep. induction ops as [|op ops IH]; intros w w' Hrun.
  - cbn in Hrun. injection Hrun as <-. apply Hrefl.
  - apply run_cons_inv in Hrun as (w1 & Hex & Hrun).
    apply (Htrans w w1 w'); [|apply IH; exact Hrun].
    apply Hstep, (exec_outcome op). exact Hex.
Qed.

Lemma outcome_console w w' :
  outcome w w' → console w `prefix_of` console w'.
Proof.
  intros [line | k | c s Cx St _ _ | s St _ | c k lines Cx _]; cbn.
  - apply prefix_app_r. reflexivity.
  - reflexivity.
  - apply prefix_app_r. reflexivity.
  - apply prefix_app_r. reflexivity.
  - apply prefix_app_r. reflexivity.
Qed.

(** X1. Whatever a client script does, the console only grows: the lines
    printed before the script are still there, in the same order, at the
    front of the console after it. *)
Theorem console_append_only (ops : list Op) (w w' : World) :
  run ops w = Ok tt w' →
  console w `prefix_of` console w'.
Proof.
  apply (run_outcomes (λ w1 w2, console w1 `prefix_of` console w2)).
  - intros w1. reflexivity.
  - intros w1 w2 w3 H12 H23. etransitivity; eassumption.
  - apply outcome_console.
Qed.

Lemma console_append_only_witness :
  let w := {| contexts := [{| state := Some 0 |}];
              states := [{| cls := ConcreteStateA; context := Some 0 |}];
              console := ["Context: Transition to ConcreteStateA."] |} in
  ∃ w', run [Request1 0; Request2 0; NewConcreteStateB; TransitionTo 0 3] w
          = Ok tt w' ∧
        console w `prefix_of` console w'.
Proof.
  intros w. eexists. split; [vm_compute; reflexivity|].
  apply (console_append_only
           [Request1 0; Request2 0; NewConcreteStateB; TransitionTo 0 3] w).
  vm_compute; reflexivity.
Defined.

Lemma outcome_contexts w w' c Cx :
  outcome w w' → contexts w !! c = Some Cx → is_Some (contexts w' !! c).
Proof.
  intros [line | k | c0 s Cx0 St Hc0 _ | s St _ | c0 k lines Cx0 Hc0] Hc; cbn;
    eauto.
  - rewrite lookup_insert_decide by (eapply lookup_lt_Some; eassumption).
    case_decide; eauto.
  - rewrite (lookup_app_l_Some _ _ _ _ Hc). eauto.
  - rewrite lookup_insert_decide by (eapply lookup_lt_Some; eassumption).
    case_decide; eauto.
Qed.

Lemma outcome_states w w' s St :
  outcome w w' → states w !! s = Some St →
  ∃ St', states w' !! s = Some St' ∧ cls St' = cls St ∧
         (is_Some (context St) → is_Some (context St')).
Proof.
  intros [line | k | c0 s0 Cx0 St0 _ Hs0 | s0 St0 Hs0 | c0 k lines Cx0 _] Hs;
    cbn.
  - eauto.
  - rewrite (lookup_app_l_Some _ _ _ _ Hs). eauto.
  - rewrite lookup_insert_decide by (eapply lookup_lt_Some; eassumption).
    case_decide as Heq; [|eauto].
    subst s0. eexists. split; [reflexivity|]. cbn.
    split; [congruence | eauto].
  - rewrite lookup_insert_decide by (eapply lookup_lt_Some; eassumption).
    case_decide as Heq; [|eauto].
    subst s0. eexists. split; [reflexivity|]. cbn.
    split; [congruence | eauto].
  - rewrite (lookup_app_l_Some _ _ _ _ Hs). eauto.
Qed.

(** X2. No client script removes an object or changes what it is: a context
    that exists before the script exists after it, and a state object that
    exists before the script exists after it with the same class; if its
    back-reference was set, it is still set. *)
Theorem objects_persist (ops : list Op) (w w' : World) :
  run ops w = Ok tt w' →
  (∀ c Cx, contexts w !! c = Some Cx → is_Some (contexts w' !! c)) ∧
  (∀ s St, states w !! s = Some St →
     ∃ St', states w' !! s = Some St' ∧ cls St' = cls St ∧
            (is_Some (context St) → is_Some (context St'))).
Proof.
  apply (run_outcomes (λ w1 w2,
    (∀ c Cx, contexts w1 !! c = Some Cx → is_Some (contexts w2 !! c)) ∧
    (∀ s St, states w1 !! s = Some St →
       ∃ St', states w2 !! s = Some St' ∧ cls St' = cls St ∧
              (is_Some (context St) → is_Some (context St'))))).
  - intros w1. split; eauto.
  - intros w1 w2 w3 [Hc12 Hs12] [Hc23 Hs23]. split.
    + intros c Cx Hc. destruct (Hc12 c Cx Hc) as [Cx2 Hc2]. eauto.
    + intros s St Hs.
      destruct (Hs12 s St Hs) as (St2 & Hs2 & Hk2 & Hb2).
      destruct (Hs23 s St2 Hs2) as (St3 & Hs3 & Hk3 & Hb3).
      exists St3. split; [assumption|]. split; [congruence | auto].
  - intros w1 w2 Hout. split.
    + intros c Cx. apply outcome_contexts. exact Hout.
    + intros s St. apply outcome_states. exact Hout.
Qed.

Lemma objects_persist_witness :
  let w := {| contexts := [{| state := Some 0 |}];
              states := [{| cls := ConcreteStateA; context := Some 0 |}];
              console := [] |} in
  ∃ w', run [Request1 0; Request2 0; TransitionTo 0 0] w = Ok tt w' ∧
    (∀ c Cx, contexts w !! c = Some Cx → is_Some (contexts w' !! c)) ∧
    (∀ s St, states w !! s = Some St →
       ∃ St', states w' !! s = Some St' ∧ cls St' = cls St ∧
              (is_Some (context St) → is_Some (context St'))).
Proof.
  intros w. eexists. split; [vm_compute; reflexivity|].
  apply (objects_persist [Request1 0; Request2 0; TransitionTo 0 0] w).
  vm_compute; reflexivity.
Defined.

Lemma triggered_move w c c' s St r :
  held_state w c = Some s →
  states w !! s = Some St →
  context St = Some c' →
  c' < length (contexts w) →
  triggers (cls St) r = true →
  exec (request_op c r) w
  = Ok tt (moved c' (machine_step (cls St) r)
             (take 2 (request_lines (cls St) r)) w).
Proof.
  intros Hheld Hs Hctx Hc' Htr.
  destruct (lookup_lt_is_Some_2 _ _ Hc') as [Cx' HCx'].
  destruct r; cbn.
  - rewrite (request1_held _ _ _ Hheld), handle1_spec, Hs.
    destruct (cls St); [|discriminate]. rewrite Hctx. unfold move_outcome.
    rewrite HCx'. reflexivity.
  - rewrite (request2_held _ _ _ Hheld), handle2_spec, Hs.
    destruct (cls St); [discriminate|]. rewrite Hctx. unfold move_outcome.
    rewrite HCx'. reflexivity.
Qed.

Lemma moved_other_context w c c' s St k lines :
  held_state w c = Some s → states w !! s = Some St →
  c' ≠ c → c' < length (contexts w) →
  let w' := moved c' k lines w in
  held_state w' c = Some s ∧
  active_class w' c = Some (cls St) ∧
  held_state w' c' = Some (length (states w)) ∧
  active_class w' c' = Some k.
Proof.
  intros Hheld Hs Hne Hc' w'.
  pose proof (moved_installs c' k lines w Hc') as Hi. fold w' in Hi.
  assert (Hheld' : held_state w' c = Some s).
  { rewrite (installs_held _ _ _ _ _ c Hi), decide_False by congruence.
    exact Hheld. }
  assert (Hs' : states w' !! s = Some St).
  { destruct Hi as [_ Hst]. rewrite Hst, decide_False; [assumption|].
    apply lookup_lt_Some in Hs. lia. }
  split; [exact Hheld'|].
  split; [exact (active_class_intro w' c s St Hheld' Hs')|].
  split; [rewrite (installs_held _ _ _ _ _ c' Hi), decide_True; reflexivity|].
  apply owns_class. exact (installs_owns _ _ _ _ _ Hi).
Qed.

(** X3. A triggering request moves the context the held state points back
    to, not the context that received the request: when context [c] holds a
    state whose back-reference is another context [c'], the request sent to
    [c] returns, leaves [c] with the same state object and class, and gives
    [c'] a new state object of the other class. *)
Theorem request_moves_backref_context (w : World) (c c' : cref) (s : sref)
    (St : State) (r : Request) :
  held_state w c = Some s →
  states w !! s = Some St →
  context St = Some c' →
  c' ≠ c →
  c' < length (contexts w) →
  triggers (cls St) r = true →
  ∃ w',
    exec (request_op c r) w = Ok tt w' ∧
    held_state w' c = Some s ∧
    active_class w' c = Some (cls St) ∧
    held_state w' c' = Some (length (states w)) ∧
    active_class w' c' = Some (machine_step (cls St) r).
Proof.
  intros Hheld Hs Hctx Hne Hc' Htr. eexists. split.
  - exact (triggered_move w c c' s St r Hheld Hs Hctx Hc' Htr).
  - exact (moved_other_context w c c' s St _ _ Hheld Hs Hne Hc').
Qed.

Lemma request_moves_backref_context_witness :
  let w := {| contexts := [{| state := Some 0 |}; {| state := Some 0 |}];
              states := [{| cls := ConcreteStateA; context := Some 1 |}];
              console := [] |} in
  ∃ w',
    exec (request_op 0 RequestOne) w = Ok tt w' ∧
    held_state w' 0 = Some 0 ∧
    active_class w' 0 = Some ConcreteStateA ∧
    held_state w' 1 = Some 1 ∧
    active_class w' 1 = Some ConcreteStateB.
Proof.
  intros w.
  refine (request_moves_backref_context w 0 1 0
            {| cls := ConcreteStateA; context := Some 1 |} RequestOne
            eq_refl eq_refl eq_refl _ _ eq_refl).
  - discriminate.
  - cbn. lia.
Defined.

(** X4. A state object that was never given to a context has no
    back-reference: its transition-triggering handler ([handle1] for a
    [ConcreteStateA], [handle2] for a [ConcreteStateB]) raises a [TypeError],
    while its other handler returns after printing one line and changes no
    object.  (The two lines the failing handler prints before it raises are
    not observed: a computation that raises returns no world.) *)
Theorem detached_state_handlers (w : World) (this : sref) (St : State) :
  states w !! this = Some St →
  context St = None →
  match cls St with
  | ConcreteStateA =>
      handle1 this w = Err TypeError ∧
      handle2 this w = Ok tt (printed ["ConcreteStateA handles request2."] w)
  | ConcreteStateB =>
      handle2 this w = Err TypeError ∧
      handle1 this w = Ok tt (printed ["ConcreteStateB handles request1."] w)
  end.
Proof.
  intros Hs Hctx. rewrite handle1_spec, handle2_spec, Hs.
  destruct (cls St); rewrite Hctx; split; reflexivity.
Qed.

Lemma detached_state_handlers_witness :
  let w := {| contexts := [];
              states := [{| cls := ConcreteStateB; context := None |}];
              console := [] |} in
  handle2 0 w = Err TypeError ∧
  handle1 0 w = Ok tt (printed ["ConcreteStateB handles request1."] w).
Proof.
  intros w.
  exact (detached_state_handlers w 0 {| cls := ConcreteStateB; context := None |}
           eq_refl eq_refl).
Defined.

Lemma request_accounted w c k r :
  owns w c k →
  ∃ w',
    exec (request_op c r) w = Ok tt w' ∧
    owns w' c (machine_step k r) ∧
    console w' = console w ++ request_lines k r ∧
    length (states w') = length (states w) + (if triggers k r then 1 else 0) ∧
    length (contexts w') = length (contexts w).
Proof.
  intros Hown. pose proof Hown as (s & Hheld & Hs).
  pose proof (held_state_live _ _ _ Hheld) as Hc.
  destruct (triggers k r) eqn:Htr.
  - exists (moved c (machine_step k r) (take 2 (request_lines k r)) w).
    split; [exact (triggered_move w c c s _ r Hheld Hs eq_refl Hc Htr)|].
    split; [eapply installs_owns, moved_installs; exact Hc|].
    cbn. rewrite length_app, length_insert. cbn.
    destruct k, r; try discriminate Htr; auto.
  - destruct k, r; try discriminate Htr; cbn.
    + rewrite (request2_held _ _ _ Hheld), handle2_spec, Hs; cbn.
      eexists. split; [reflexivity|]. cbn. auto with lia.
    + rewrite (request1_held _ _ _ Hheld), handle1_spec, Hs; cbn.
      eexists. split; [reflexivity|]. cbn. auto with lia.
Qed.

Lemma requests_accounted rs : ∀ w c k,
  owns w c k →
  ∃ w',
    run (map (request_op c) rs) w = Ok tt w' ∧
    console w' = console w ++ machine_trace k rs ∧
    length (states w') = length (states w) + transitions k rs ∧
    length (contexts w') = length (contexts w).
Proof.
  induction rs as [|r rs IH]; intros w c k Hown.
  - exists w. cbn. rewrite app_nil_r. auto with lia.
  - destruct (request_accounted w c k r Hown)
      as (w1 & Hex & Hown1 & Hcon1 & Hst1 & Hcx1).
    destruct (IH w1 c _ Hown1) as (w' & Hrun & Hcon & Hst & Hcx).
    exists w'. cbn [map machine_trace transitions].
    rewrite (run_cons_Ok _ _ _ _ Hex).
    split; [exact Hrun|].
    split; [rewrite Hcon, Hcon1, <- app_assoc; reflexivity|].
    split; lia.
Qed.

(** X5. For a context that holds a state of class [k] pointing back to it,
    any sequence of requests prints exactly the lines of the handlers the
    two-state machine goes through, in order, after what was on the console:
    one line for a request that does not trigger a transition, the two lines
    of the handler and the transition line for one that does. *)
Theorem requests_print_machine_trace (w : World) (c : cref) (k : StateClass)
    (rs : list Request) :
  owns w c k →
  ∃ w',
    run (map (request_op c) rs) w = Ok tt w' ∧
    console w' = console w ++ machine_trace k rs.
Proof.
  intros Hown.
  destruct (requests_accounted rs w c k Hown) as (w' & Hrun & Hcon & _).
  exists w'. auto.
Qed.

Lemma requests_print_machine_trace_witness :
  let w := {| contexts := [{| state := Some 0 |}];
              states := [{| cls := ConcreteStateA; context := Some 0 |}];
              console := ["Context: Transition to ConcreteStateA."] |} in
  let rs := [RequestTwo; RequestOne; RequestOne; RequestTwo] in
  ∃ w',
    run (map (request_op 0) rs) w = Ok tt w' ∧
    console w' = console w ++ machine_trace ConcreteStateA rs.
Proof.
  intros w rs.
  apply (requests_print_machine_trace w 0 ConcreteStateA rs).
  exists 0. split; reflexivity.
Defined.

(** X6. For a context that holds a state of class [k] pointing back to it,
    a sequence of requests creates exactly one state object for each
    transition of the two-state machine and none otherwise (replaced state
    objects stay in the store), and creates no context. *)
Theorem requests_allocate_per_transition (w : World) (c : cref)
    (k : StateClass) (rs : list Request) :
  owns w c k →
  ∃ w',
    run (map (request_op c) rs) w = Ok tt w' ∧
    length (states w') = length (states w) + transitions k rs ∧
    length (contexts w') = length (contexts w).
Proof.
  intros Hown.
  destruct (requests_accounted rs w c k Hown) as (w' & Hrun & _ & Hst & Hcx).
  exists w'. auto.
Qed.

Lemma requests_allocate_per_transition_witness :
  let w := {| contexts := [{| state := Some 0 |}];
              states := [{| cls := ConcreteStateA; context := Some 0 |}];
              console := [] |} in
  let rs := [RequestTwo; RequestOne; RequestOne; RequestTwo] in
  ∃ w',
    run (map (request_op 0) rs) w = Ok tt w' ∧
    length (states w') = length (states w) + transitions ConcreteStateA rs ∧
    length (contexts w') = length (contexts w).
Proof.
  intros w rs.
  apply (requests_allocate_per_transition w 0 ConcreteStateA rs).
  exists 0. split; reflexivity.
Defined.

(** X7. Calling [transitionTo] a second time with the same state object
    changes no object: the context holds the same state, every state object
    is as the first call left it, and only one more transition line is
    printed. *)
Theorem transitionTo_twice (w : World) (c : cref) (s : sref)
    (Cx : Context) (St : State) :
  contexts w !! c = Some Cx →
  states w !! s = Some St →
  ∃ w1 w2,
    transitionTo c s w = Ok tt w1 ∧
    transitionTo c s w1 = Ok tt w2 ∧
    contexts w2 = contexts w1 ∧
    states w2 = states w1 ∧
    console w2 = console w1 ++ [transition_line (cls St)].
Proof.
  intros Hc Hs.
  pose proof (lookup_lt_Some _ _ _ Hc) as Hlc.
  pose proof (lookup_lt_Some _ _ _ Hs) as Hls.
  exists (transitioned c s (cls St) w).
  exists (transitioned c s (cls St) (transitioned c s (cls St) w)).
  split; [exact (transitionTo_ok c s w Cx St Hc Hs)|].
  split.
  - apply (transitionTo_ok c s _ {| state := Some s |}
             {| cls := cls St; context := Some c |}); cbn.
    + apply list_lookup_insert_eq. exact Hlc.
    + apply list_lookup_insert_eq. exact Hls.
  - cbn. rewrite !list_insert_insert_eq. auto.
Qed.

Lemma transitionTo_twice_witness :
  let w := {| contexts := [{| state := Some 0 |}];
              states := [{| cls := ConcreteStateA; context := Some 0 |};
                         {| cls := ConcreteStateB; context := None |}];
              console := [] |} in
  ∃ w1 w2,
    transitionTo 0 1 w = Ok tt w1 ∧
    transitionTo 0 1 w1 = Ok tt w2 ∧
    contexts w2 = contexts w1 ∧
    states w2 = states w1 ∧
    console w2 = console w1 ++ ["Context: Transition to ConcreteStateB."].
Proof.
  intros w.
  exact (transitionTo_twice w 0 1 {| state := Some 0 |}
           {| cls := ConcreteStateB; context := None |} eq_refl eq_refl).
Defined.

Lemma setContext_ok this ctx w St :
  states w !! this = Some St →
  setContext this ctx w
  = Ok tt {| contexts := contexts w;
             states := <[this := {| cls := cls St; context := Some ctx |}]>
                         (states w);
             console := console w |}.
Proof.
  intros Hs. unfold setContext, read_state, write_state, mbind, M_bind.
  rewrite Hs; cbn. rewrite Hs. reflexivity.
Qed.

(** X8. [setContext] alone re-targets a state object without telling any
    context: it prints nothing and leaves every context holding what it
    held, so after [s.setContext(c2)] on the state object [s] held by [c1],
    a triggering request sent to [c1] leaves [c1] where it was and moves
    [c2] instead. *)
Theorem setContext_redirects_requests (w : World) (c1 c2 : cref) (s : sref)
    (St : State) (r : Request) :
  held_state w c1 = Some s →
  states w !! s = Some St →
  c2 ≠ c1 →
  c2 < length (contexts w) →
  triggers (cls St) r = true →
  ∃ w1 w2,
    setContext s c2 w = Ok tt w1 ∧
    contexts w1 = contexts w ∧ console w1 = console w ∧
    exec (request_op c1 r) w1 = Ok tt w2 ∧
    held_state w2 c1 = Some s ∧
    active_class w2 c1 = Some (cls St) ∧
    active_class w2 c2 = Some (machine_step (cls St) r).
Proof.
  intros Hheld Hs Hne Hc2 Htr.
  set (St1 := {| cls := cls St; context := Some c2 |}).
  set (w1 := {| contexts := contexts w;
                states := <[s := St1]> (states w);
                console := console w |}).
  assert (Hs1 : states w1 !! s = Some St1).
  { cbn. apply list_lookup_insert_eq. eapply lookup_lt_Some; eassumption. }
  exists w1. eexists.
  split; [exact (setContext_ok s c2 w St Hs)|].
  split; [reflexivity|]. split; [reflexivity|].
  split; [exact (triggered_move w1 c1 c2 s St1 r Hheld Hs1 eq_refl Hc2 Htr)|].
  destruct (moved_other_context w1 c1 c2 s St1 (machine_step (cls St) r)
              (take 2 (request_lines (cls St) r)) Hheld Hs1 Hne Hc2)
    as (H1 & H2 & _ & H4).
  auto.
Qed.

Lemma setContext_redirects_requests_witness :
  let w := {| contexts := [{| state := Some 0 |}; {| state := Some 1 |}];
              states := [{| cls := ConcreteStateA; context := Some 0 |};
                         {| cls := ConcreteStateA; context := Some 1 |}];
              console := [] |} in
  ∃ w1 w2,
    setContext 0 1 w = Ok tt w1 ∧
    contexts w1 = contexts w ∧ console w1 = console w ∧
    exec (request_op 0 RequestOne) w1 = Ok tt w2 ∧
    held_state w2 0 = Some 0 ∧
    active_class w2 0 = Some ConcreteStateA ∧
    active_class w2 1 = Some ConcreteStateB.
Proof.
  intros w.
  refine (setContext_redirects_requests w 0 1 0
            {| cls := ConcreteStateA; context := Some 0 |} RequestOne
            eq_refl eq_refl _ _ eq_refl).
  - discriminate.
  - cbn. lia.
Defined.

(** X12. [new Context(s)] accepts any state object, also one that a
    context already holds: it returns a new context that holds [s], prints
    the transition line of the class of [s], and turns the back-reference
    of [s] to the new context, while every context that existed keeps
    holding what it held -- a former holder of [s] included, whose state now
    points back to the new context. *)
Theorem constructor_takes_over_state (w : World) (s : sref) (St : State) :
  states w !! s = Some St →
  ∃ w',
    new_Context s w = Ok (length (contexts w)) w' ∧
    contexts w !! length (contexts w) = None ∧
    held_state w' (length (contexts w)) = Some s ∧
    backref w' s = Some (length (contexts w)) ∧
    active_class w' (length (contexts w)) = Some (cls St) ∧
    console w' = console w ++ [transition_line (cls St)] ∧
    ∀ c s0, held_state w c = Some s0 → held_state w' c = Some s0.
Proof.
  intros Hs. exists (created s (cls St) w).
  pose proof (created_installs s (cls St) w (lookup_lt_Some _ _ _ Hs)) as Hi.
  split; [exact (new_Context_ok s w St Hs)|].
  split; [apply lookup_ge_None; lia|].
  split; [rewrite (installs_held _ _ _ _ _ _ Hi), decide_True; reflexivity|].
  split; [rewrite (installs_backref _ _ _ _ _ _ Hi), decide_True; reflexivity|].
  split; [apply owns_class; exact (installs_owns _ _ _ _ _ Hi)|].
  split; [reflexivity|].
  intros c s0 Hheld.
  rewrite (installs_held _ _ _ _ _ c Hi), decide_False; [exact Hheld|].
  apply held_state_live in Hheld. lia.
Qed.

Lemma constructor_takes_over_state_witness :
  let w := {| contexts := [{| state := Some 0 |}];
              states := [{| cls := ConcreteStateA; context := Some 0 |}];
              console := [] |} in
  ∃ w',
    new_Context 0 w = Ok 1 w' ∧
    contexts w !! 1 = None ∧
    held_state w' 1 = Some 0 ∧
    backref w' 0 = Some 1 ∧
    active_class w' 1 = Some ConcreteStateA ∧
    console w' = ["Context: Transition to ConcreteStateA."] ∧
    ∀ c s0, held_state w c = Some s0 → held_state w' c = Some s0.
Proof.
  intros w.
  exact (constructor_takes_over_state w 0
           {| cls := ConcreteStateA; context := Some 0 |} eq_refl).
Defined.

End StateOutcomes.

(** * Properties of the Proxy example *)

Section ProxyProperties.
Import ProxyPattern ProxySpec.

(** The statements at the end of the file print what the comment that
    follows them announces. *)
Example main_output :
  output main =
  ["Client: Executing the client code with a real subject:";
   "RealSubject: Handling request.";
   EmptyString;
   "Client: Executing the same client code with a proxy:";
   "Proxy: Checking access prior to firing a real request.";
   "RealSubject: Handling request.";
   "Proxy: Logging the time of request."].
Proof. reflexivity. Qed.

Lemma clientCode_lines (subject : AnySubject) (out : list string) :
  clientCode subject out = (tt, out ++ subject_lines subject).
Proof.
  destruct subject as [r|p]; cbn.
  - reflexivity.
  - unfold request, Proxy_Subject, checkAccess, logAccess, console_log,
      mbind, Console_bind, mret, Console_ret; cbn.
    rewrite <- !app_assoc. reflexivity.
Qed.

Lemma serve_cons subject rest out :
  serve (subject :: rest) out = serve rest (out ++ subject_lines subject).
Proof.
  cbn [serve]. unfold mbind, Console_bind.
  rewrite clientCode_lines. reflexivity.
Qed.

(** X9. Whatever the console holds and whichever subjects a client passes
    to [clientCode], every call is served: a real subject prints its line,
    and a proxy always lets the request through -- the access check is
    printed first, then the line of the real subject, then the log line --
    and nothing else is printed or removed. *)
Theorem serve_prints_in_order (subjects : list AnySubject)
    (out : list string) :
  serve subjects out = (tt, out ++ concat (map subject_lines subjects)).
Proof.
  revert out. induction subjects as [|subject rest IH]; intros out.
  - cbn. rewrite app_nil_r. reflexivity.
  - rewrite serve_cons, IH. cbn [map concat].
    rewrite <- app_assoc. reflexivity.
Qed.

Lemma without_proxy_lines_app out1 out2 :
  without_proxy_lines (out1 ++ out2)
  = without_proxy_lines out1 ++ without_proxy_lines out2.
Proof. apply filter_app. Qed.

Lemma without_proxy_lines_subject subject :
  without_proxy_lines (subject_lines subject) = subject_lines (unwrap subject).
Proof. destruct subject; reflexivity. Qed.

(** X10. A proxy is transparent: once the lines the proxies print on their
    own account are taken out, the console after serving a list of subjects
    is the console after serving the real subjects behind them. *)
Theorem proxy_is_transparent (subjects : list AnySubject) (out : list string) :
  without_proxy_lines (snd (serve subjects out)) =
  snd (serve (map unwrap subjects) (without_proxy_lines out)).
Proof.
  revert out. induction subjects as [|subject rest IH]; intros out.
  - reflexivity.
  - cbn [map]. rewrite !serve_cons, IH.
    rewrite without_proxy_lines_app, without_proxy_lines_subject.
    reflexivity.
Qed.

Lemma occurrences_app line out1 out2 :
  occurrences line (out1 ++ out2)
  = occurrences line out1 + occurrences line out2.
Proof. unfold occurrences. rewrite filter_app, length_app. reflexivity. Qed.

Lemma proxies_cons subject rest :
  proxies (subject :: rest)
  = (if is_proxy subject then 1 else 0) + proxies rest.
Proof.
  unfold proxies. rewrite filter_cons.
  destruct subject; cbn; case_decide; try discriminate; try congruence;
    reflexivity.
Qed.

Lemma occurrences_subject subject :
  occurrences real_line (subject_lines subject) = 1 ∧
  occurrences check_line (subject_lines subject)
  = (if is_proxy subject then 1 else 0) ∧
  occurrences log_line (subject_lines subject)
  = (if is_proxy subject then 1 else 0).
Proof. destruct subject; repeat split; reflexivity. Qed.

(** X11. Serving a list of subjects reaches a real subject exactly once for
    each call, directly or through a proxy, and each call through a proxy
    is checked once and logged once: the console gains one real-subject line
    per subject, and one access-check line and one log line per proxy. *)
Theorem each_request_served_once (subjects : list AnySubject)
    (out : list string) :
  let out' := snd (serve subjects out) in
  occurrences real_line out' = occurrences real_line out + length subjects ∧
  occurrences check_line out' = occurrences check_line out + proxies subjects ∧
  occurrences log_line out' = occurrences log_line out + proxies subjects.
Proof.
  revert out. induction subjects as [|subject rest IH]; intros out.
  - cbn. unfold proxies; cbn. auto with lia.
  - cbn zeta in IH |- *. rewrite serve_cons.
    destruct (IH (out ++ subject_lines subject)) as (Hr & Hc & Hl).
    destruct (occurrences_subject subject) as (Sr & Sc & Sl).
    rewrite Hr, Hc, Hl, !occurrences_app, proxies_cons, Sr, Sc, Sl.
    cbn [length]. repeat split; lia.
Qed.

End ProxyProperties.
